(** * 9cc: a one-pass compiler for sums and differences of integers

    A shallow embedding of [9cc.c] and the proofs of its specification.

    The program reads one expression from its command line, splits it into
    a linked list of tokens ([tokenize]), and then walks that list with a
    global cursor ([token]) while printing x86-64 assembly in Intel syntax.
    Every error is reported by [error_at] or [error], which write to the
    error stream and call [exit(1)].

    Modelling choices, all following the C text:
    - a [char] is an [ascii]; a [char *] into the input is a byte offset
      into [user_input], and a NUL-terminated buffer is a [list ascii] that
      ends at its first NUL character or at the end of the list;
    - the linked list of tokens is a [list Token]; the pointer [token] is
      the part of the list that starts at the current token, and the empty
      list is the NULL pointer;
    - the globals [token] and [user_input] and the two output streams are
      the fields of [State]; a C function is a function in the monad [M],
      whose results tell a normal return from a call of [exit];
    - [int] is 32 bits and [long] 64 bits wide (the emitted code is x86-64);
      the conversions are written out with [Z]. *)

From Stdlib Require Import String Ascii Decimal DecimalString DecimalPos DecimalZ.
From Stdlib Require Import ZArith NArith Nnat List Bool Lia Arith.
Import ListNotations.

Local Open Scope Z_scope.

(** ** Characters and text *)

Definition text (s : string) : list ascii := list_ascii_of_string s.

Definition NUL : ascii := Ascii.zero.
Definition newline : ascii := "010"%char.
Definition space : ascii := " "%char.

Definition code (c : ascii) : N := N_of_ascii c.

(** [isspace] and [isdigit] of <ctype.h> in the C locale. *)
Definition isspace (c : ascii) : bool :=
  (code c =? 32)%N || ((9 <=? code c)%N && (code c <=? 13)%N).

Definition isdigit (c : ascii) : bool :=
  (48 <=? code c)%N && (code c <=? 57)%N.

Definition is_nul (c : ascii) : bool := (code c =? 0)%N.

(** The characters of a NUL-terminated buffer: what [%s] prints. *)
Fixpoint c_string (buf : list ascii) : list ascii :=
  match buf with
  | [] => []
  | c :: buf' => if is_nul c then [] else c :: c_string buf'
  end.

Definition strlen (buf : list ascii) : nat := length (c_string buf).

(** A piece of text that holds no NUL. *)
Definition no_nul (l : list ascii) : Prop := Forall (fun c => is_nul c = false) l.

(** [buf[i]]; the terminator is read at the end of the list. *)
Definition char_at (buf : list ascii) (i : nat) : ascii := nth i buf NUL.

(** ** Machine integers *)

Definition INT_MAX : Z := 2147483647.
Definition LONG_MAX : Z := 9223372036854775807.

(** Conversion of a [long] to [int]: reduction modulo 2^32 into the signed
    range. *)
Definition to_int (v : Z) : Z := (v + 2^31) mod 2^32 - 2^31.

(** The value of a digit character, and of a run of digits read left to
    right in base 10. *)
Definition digit_value (c : ascii) : Z := Z.of_N (code c) - 48.

Definition dec_value (ds : list ascii) : Z :=
  fold_left (fun acc c => 10 * acc + digit_value c) ds 0.

(** The maximal run of digits at the head of a buffer, and what follows. *)
Fixpoint span_digits (buf : list ascii) : list ascii * list ascii :=
  match buf with
  | c :: buf' =>
      if isdigit c then let (ds, rest) := span_digits buf' in (c :: ds, rest)
      else ([], buf)
  | [] => ([], [])
  end.

(** [strtol(p, &p, 10)] where [p] points at a digit: the digits are
    converted, the result saturates at [LONG_MAX], and the end pointer is
    left after the last digit. The result is the value, the number of
    characters consumed and the rest of the buffer. *)
Definition strtol (buf : list ascii) : Z * nat * list ascii :=
  let (ds, rest) := span_digits buf in
  (Z.min (dec_value ds) LONG_MAX, length ds, rest).

(** [%d] of printf. *)
Definition print_int (v : Z) : list ascii :=
  text (NilZero.string_of_int (Z.to_int v)).

(** [%*s]: the string right-justified in a field of the given width. *)
Definition pad_left (width : nat) (s : list ascii) : list ascii :=
  repeat space (width - length s) ++ s.

(** ** Tokens *)

Inductive TokenKind : Type :=
| TK_RESERVED
| TK_NUM
| TK_EOF.

Definition TokenKind_eqb (a b : TokenKind) : bool :=
  match a, b with
  | TK_RESERVED, TK_RESERVED | TK_NUM, TK_NUM | TK_EOF, TK_EOF => true
  | _, _ => false
  end.

(** [struct Token] without its [next] field, which is the tail of the list
    the token is in. [str] is the offset of the token's first character. *)
Record Token : Type := mkToken {
  kind : TokenKind;
  val : Z;
  str : nat
}.

(** ** Program state and the monad of C functions *)

Record State : Type := mkState {
  user_input : list ascii;
  token : list Token;
  stdout : list ascii;
  stderr : list ascii
}.

Inductive Result (A : Type) : Type :=
| Returned (a : A) (s : State)
| Exited (status : Z) (s : State)
| Undefined
| OutOfFuel.

Arguments Returned {A} a s.
Arguments Exited {A} status s.
Arguments Undefined {A}.
Arguments OutOfFuel {A}.

Definition M (A : Type) : Type := State -> Result A.

Definition ret {A} (a : A) : M A := fun s => Returned a s.

Definition bind {A B} (m : M A) (k : A -> M B) : M B :=
  fun s =>
    match m s with
    | Returned a s' => k a s'
    | Exited st s' => Exited st s'
    | Undefined => Undefined
    | OutOfFuel => OutOfFuel
    end.

Declare Scope c_scope.
Delimit Scope c_scope with C.
Notation "x <- m ;; k" := (bind m (fun x => k))
  (at level 100, m at next level, right associativity) : c_scope.
Notation "m ;; k" := (bind m (fun _ => k))
  (at level 100, right associativity) : c_scope.
Local Open Scope c_scope.

Definition exit {A} (status : Z) : M A := fun s => Exited status s.
Definition undefined {A} : M A := fun _ => Undefined.
Definition out_of_fuel {A} : M A := fun _ => OutOfFuel.

Definition get_user_input : M (list ascii) := fun s => Returned (user_input s) s.

Definition set_user_input (buf : list ascii) : M unit :=
  fun s => Returned tt (mkState buf (token s) (stdout s) (stderr s)).

Definition set_token (t : list Token) : M unit :=
  fun s => Returned tt (mkState (user_input s) t (stdout s) (stderr s)).

Definition printf (out : list ascii) : M unit :=
  fun s => Returned tt (mkState (user_input s) (token s) (stdout s ++ out) (stderr s)).

Definition fprintf_stderr (out : list ascii) : M unit :=
  fun s => Returned tt (mkState (user_input s) (token s) (stdout s) (stderr s ++ out)).

(** The current token, [*token]; reading through NULL is undefined. *)
Definition current : M Token :=
  fun s => match token s with
           | t :: _ => Returned t s
           | [] => Undefined
           end.

(** [token = token->next] *)
Definition advance : M unit :=
  fun s => match token s with
           | _ :: next => Returned tt (mkState (user_input s) next (stdout s) (stderr s))
           | [] => Undefined
           end.

(** ** Diagnostics *)

(** [error_at(loc, fmt, ...)]: the message is [fmt] with its arguments
    already substituted. *)
Definition error_at {A} (loc : nat) (msg : list ascii) : M A :=
  buf <- get_user_input ;;
  let pos := loc in
  fprintf_stderr (c_string buf ++ [newline]) ;;
  fprintf_stderr (pad_left pos [space]) ;;
  fprintf_stderr (text "^ ") ;;
  fprintf_stderr msg ;;
  fprintf_stderr [newline] ;;
  exit 1.

Definition with_stderr (s : State) (e : list ascii) : State :=
  mkState (user_input s) (token s) (stdout s) e.

(** What [error_at] leaves on the error stream. *)
Definition diagnostic (buf : list ascii) (pos : nat) (msg : list ascii) : list ascii :=
  c_string buf ++ [newline] ++ pad_left pos [space] ++ text "^ " ++ msg ++ [newline].

Definition error {A} (msg : list ascii) : M A :=
  fprintf_stderr msg ;;
  fprintf_stderr [newline] ;;
  exit 1.

Definition msg_not_char (op : ascii) : list ascii :=
  text "'" ++ [op] ++ text "'ではありません".
Definition msg_not_number : list ascii := text "数ではありません".
Definition msg_cannot_tokenize : list ascii := text "トークナイズできません".
Definition msg_usage (prog : list ascii) : list ascii :=
  c_string prog ++ text ": 引数の個数が正しくありません".

(** ** The cursor *)

(** [token->kind != TK_RESERVED || token->str[0] != op] *)
Definition not_reserved (buf : list ascii) (t : Token) (op : ascii) : bool :=
  negb (TokenKind_eqb (kind t) TK_RESERVED)
  || negb (Ascii.eqb (char_at buf (str t)) op).

Definition consume (op : ascii) : M bool :=
  t <- current ;;
  buf <- get_user_input ;;
  if not_reserved buf t op then ret false
  else advance ;; ret true.

Definition expect (op : ascii) : M unit :=
  t <- current ;;
  buf <- get_user_input ;;
  (if not_reserved buf t op then error_at (str t) (msg_not_char op)
   else ret tt) ;;
  advance.

Definition expect_number : M Z :=
  t <- current ;;
  (if negb (TokenKind_eqb (kind t) TK_NUM) then error_at (str t) msg_not_number
   else ret tt) ;;
  let v := val t in
  advance ;;
  ret v.

Definition at_eof : M bool :=
  t <- current ;;
  ret (TokenKind_eqb (kind t) TK_EOF).

(** ** The lexer *)

(** [new_token(kind, cur, str)]: a zeroed token that becomes the successor
    of [cur]. The chain built so far is kept with [cur] in front. *)
Definition new_token (k : TokenKind) (cur : list Token) (p : nat) : list Token :=
  mkToken k 0 p :: cur.

(** [cur->val = v] *)
Definition set_val (cur : list Token) (v : Z) : list Token :=
  match cur with
  | t :: before => mkToken (kind t) v (str t) :: before
  | [] => []
  end.

(** The loop of [tokenize]. The pointer [p] is the pair of its offset and
    of the buffer from there on; each turn of the loop uses one unit of
    fuel. *)
Fixpoint tokenize_loop (fuel : nat) (p : nat) (buf : list ascii)
    (cur : list Token) : M (list Token) :=
  match fuel with
  | O => out_of_fuel
  | S fuel' =>
      match buf with
      | [] => ret (rev (new_token TK_EOF cur p))
      | c :: buf' =>
          if is_nul c then ret (rev (new_token TK_EOF cur p))
          else if isspace c then tokenize_loop fuel' (S p) buf' cur
          else if Ascii.eqb c "+" || Ascii.eqb c "-" then
            let cur := new_token TK_RESERVED cur p in
            tokenize_loop fuel' (S p) buf' cur
          else if isdigit c then
            let cur := new_token TK_NUM cur p in
            let '(v, n, rest) := strtol buf in
            let cur := set_val cur (to_int v) in
            tokenize_loop fuel' (p + n) rest cur
          else error_at p msg_cannot_tokenize
      end
  end.

Definition tokenize : M (list Token) :=
  buf <- get_user_input ;;
  tokenize_loop (S (length buf)) 0 buf [].

(** ** Code generation *)

Definition line (s : list ascii) : list ascii := s ++ [newline].

Definition asm_syntax : list ascii := line (text ".intel_syntax noprefix").
Definition asm_globl : list ascii := line (text ".globl main").
Definition asm_label : list ascii := line (text "main:").
Definition asm_mov (v : Z) : list ascii := line (text "  mov rax, " ++ print_int v).
Definition asm_add (v : Z) : list ascii := line (text "  add rax, " ++ print_int v).
Definition asm_sub (v : Z) : list ascii := line (text "  sub rax, " ++ print_int v).
Definition asm_ret : list ascii := line (text "  ret").

(** The [while (!at_eof())] loop of [main]. *)
Fixpoint main_loop (fuel : nat) : M unit :=
  match fuel with
  | O => out_of_fuel
  | S fuel' =>
      eof <- at_eof ;;
      if eof then ret tt
      else
        plus <- consume "+" ;;
        if plus then
          v <- expect_number ;;
          printf (asm_add v) ;;
          main_loop fuel'
        else
          expect "-" ;;
          v <- expect_number ;;
          printf (asm_sub v) ;;
          main_loop fuel'
  end.

(** [main(argc, argv)]; [argc] is the length of [argv]. *)
Definition main (argv : list (list ascii)) : M Z :=
  match argv with
  | [_; arg] =>
      set_user_input arg ;;
      toks <- tokenize ;;
      set_token toks ;;
      printf asm_syntax ;;
      printf asm_globl ;;
      printf asm_label ;;
      v <- expect_number ;;
      printf (asm_mov v) ;;
      main_loop (length toks) ;;
      printf asm_ret ;;
      ret 0
  | prog :: _ => error (msg_usage prog)
  | [] => undefined
  end.

Definition initial_state : State := mkState [] [] [] [].

(** What the process leaves behind: exit status, standard output, standard
    error. *)
Record Outcome : Type := mkOutcome {
  status : Z;
  output : list ascii;
  errors : list ascii
}.

Definition run (argv : list (list ascii)) : option Outcome :=
  match main argv initial_state with
  | Returned st s => Some (mkOutcome st (stdout s) (stderr s))
  | Exited st s => Some (mkOutcome st (stdout s) (stderr s))
  | Undefined | OutOfFuel => None
  end.

Definition compile (input : string) : option Outcome :=
  run [text "9cc"; text input].

(** Standard output and standard error of a run, as strings. *)
Definition listing_of (input : string) : option string :=
  option_map (fun o => string_of_list_ascii (output o)) (compile input).

Definition report_of (input : string) : option string :=
  option_map (fun o => string_of_list_ascii (errors o)) (compile input).

(** ** Executing the emitted text

    What the assembler and the processor make of the listing: the text is
    cut into lines, directives and labels do nothing, and [mov], [add],
    [sub] and [ret] act on the 64-bit register [rax]. The operand of [add]
    and [sub] has to fit a sign-extended 32-bit immediate. The result of
    the run is [rax], read as a signed number, when [ret] is reached. *)

Module Asm.

Fixpoint split_lines (s : list ascii) : list (list ascii) :=
  match s with
  | [] => [[]]
  | c :: s' =>
      if Ascii.eqb c newline then [] :: split_lines s'
      else match split_lines s' with
           | l :: ls => (c :: l) :: ls
           | [] => [[c]]
           end
  end.

Fixpoint strip_prefix (pre s : list ascii) : option (list ascii) :=
  match pre, s with
  | [], _ => Some s
  | a :: pre', b :: s' => if Ascii.eqb a b then strip_prefix pre' s' else None
  | _ :: _, [] => None
  end.

Definition parse_imm (s : list ascii) : option Z :=
  option_map Z.of_int (NilZero.int_of_string (string_of_list_ascii s)).

Definition fits_imm32 (v : Z) : bool := (- 2^31 <=? v) && (v <? 2^31).

Definition wrap64 (v : Z) : Z := v mod 2^64.
Definition signed64 (v : Z) : Z := (v + 2^63) mod 2^64 - 2^63.

Inductive Machine : Type :=
| Running (rax : Z)
| Halted (result : Z).

Definition exec_instruction (l : list ascii) (rax : Z) : option Machine :=
  match strip_prefix (text "  mov rax, ") l with
  | Some imm => option_map (fun v => Running (wrap64 v)) (parse_imm imm)
  | None =>
  match strip_prefix (text "  add rax, ") l with
  | Some imm =>
      match parse_imm imm with
      | Some v => if fits_imm32 v then Some (Running (wrap64 (rax + v))) else None
      | None => None
      end
  | None =>
  match strip_prefix (text "  sub rax, ") l with
  | Some imm =>
      match parse_imm imm with
      | Some v => if fits_imm32 v then Some (Running (wrap64 (rax - v))) else None
      | None => None
      end
  | None =>
  match strip_prefix (text "  ret") l with
  | Some [] => Some (Halted (signed64 rax))
  | _ => None
  end end end end.

(** A line is empty, a directive (it starts with a dot), an instruction (it
    starts with a blank) or a label (it ends with a colon). *)
Definition exec_line (l : list ascii) (rax : Z) : option Machine :=
  match l with
  | [] => Some (Running rax)
  | c :: _ =>
      if Ascii.eqb c "." then Some (Running rax)
      else if Ascii.eqb c space then exec_instruction l rax
      else if Ascii.eqb (last l NUL) ":" then Some (Running rax)
      else None
  end.

Fixpoint exec_lines (ls : list (list ascii)) (rax : Z) : option Z :=
  match ls with
  | [] => None
  | l :: ls' =>
      match exec_line l rax with
      | Some (Running rax') => exec_lines ls' rax'
      | Some (Halted v) => Some v
      | None => None
      end
  end.

(** The run of a listing from an arbitrary initial [rax]. *)
Definition execute (rax0 : Z) (listing : list ascii) : option Z :=
  exec_lines (split_lines listing) rax0.

End Asm.

Import Asm.

(** ** The loop of the lexer, as a relation

    [lex p buf toks]: scanning [buf], whose first character has offset [p],
    reaches the terminator and yields the tokens [toks]. [lex_error p buf q]:
    the scan stops at offset [q] on a character that starts no token. Both
    are proved below to describe [tokenize_loop] exactly. *)

Definition num_token (ds : list ascii) (p : nat) : Token :=
  mkToken TK_NUM (to_int (Z.min (dec_value ds) LONG_MAX)) p.

Definition at_terminator (buf : list ascii) : Prop :=
  match buf with
  | [] => True
  | c :: _ => is_nul c = true
  end.

Definition is_sign (c : ascii) : bool := Ascii.eqb c "+" || Ascii.eqb c "-".

Inductive lex : nat -> list ascii -> list Token -> Prop :=
| lex_eof p buf :
    at_terminator buf ->
    lex p buf [mkToken TK_EOF 0 p]
| lex_space p c buf toks :
    isspace c = true ->
    lex (S p) buf toks ->
    lex p (c :: buf) toks
| lex_sign p c buf toks :
    is_sign c = true ->
    lex (S p) buf toks ->
    lex p (c :: buf) (mkToken TK_RESERVED 0 p :: toks)
| lex_digits p c buf ds rest toks :
    isdigit c = true ->
    span_digits (c :: buf) = (ds, rest) ->
    lex (p + length ds) rest toks ->
    lex p (c :: buf) (num_token ds p :: toks).

Inductive lex_error : nat -> list ascii -> nat -> Prop :=
| lex_error_here p c buf :
    is_nul c = false -> isspace c = false -> is_sign c = false ->
    isdigit c = false ->
    lex_error p (c :: buf) p
| lex_error_space p c buf q :
    isspace c = true ->
    lex_error (S p) buf q ->
    lex_error p (c :: buf) q
| lex_error_sign p c buf q :
    is_sign c = true ->
    lex_error (S p) buf q ->
    lex_error p (c :: buf) q
| lex_error_digits p c buf ds rest q :
    isdigit c = true ->
    span_digits (c :: buf) = (ds, rest) ->
    lex_error (p + length ds) rest q ->
    lex_error p (c :: buf) q.


(** ** Where a token lies in the input

    A token records only the offset of its first character. Its extent is
    what the lexer passed over when it made the token: one character for a
    sign, the run of digits for a number, nothing for the end marker. *)

Definition token_width (buf : list ascii) (t : Token) : nat :=
  match kind t with
  | TK_RESERVED => 1
  | TK_NUM => length (fst (span_digits (skipn (str t) buf)))
  | TK_EOF => 0
  end.

(** Each token starts strictly after the start of the one before it, and
    not before its end. *)
Fixpoint in_order (buf : list ascii) (toks : list Token) : Prop :=
  match toks with
  | t :: (t' :: _) as rest =>
      (str t < str t')%nat /\ (str t + token_width buf t <= str t')%nat /\
      in_order buf rest
  | _ => True
  end.

Definition sign_token_ok (buf : list ascii) (t : Token) : Prop :=
  kind t = TK_RESERVED ->
  (char_at buf (str t) = "+"%char \/ char_at buf (str t) = "-"%char) /\ val t = 0.

(** The three lines [main] prints before it looks at the first token. *)
Definition prologue : list ascii := asm_syntax ++ asm_globl ++ asm_label.

(** ** What the loop of [main] reads and writes

    One turn of the loop that does not fail consumes a sign token and a
    number token and prints one instruction. *)

Inductive Op : Type :=
| OpAdd
| OpSub.

Definition op_char (o : Op) : ascii :=
  match o with
  | OpAdd => "+"%char
  | OpSub => "-"%char
  end.

Definition asm_op (x : Op * Z) : list ascii :=
  match fst x with
  | OpAdd => asm_add (snd x)
  | OpSub => asm_sub (snd x)
  end.

Definition asm_ops (ops : list (Op * Z)) : list ascii := concat (map asm_op ops).

(** [operand_tokens buf toks ops tail]: the token list [toks] starts with the
    pairs of a sign token and a number token that [ops] lists, in this
    order, and goes on with [tail]. *)
Inductive operand_tokens (buf : list ascii) :
    list Token -> list (Op * Z) -> list Token -> Prop :=
| operand_tokens_nil tail :
    operand_tokens buf tail [] tail
| operand_tokens_cons t1 t2 toks o ops tail :
    kind t1 = TK_RESERVED ->
    char_at buf (str t1) = op_char o ->
    kind t2 = TK_NUM ->
    operand_tokens buf toks ops tail ->
    operand_tokens buf (t1 :: t2 :: toks) ((o, val t2) :: ops) tail.

(** The value of the accumulator after the instructions of [ops], without
    and with the wrap-around of the 64-bit register. *)
Definition apply_op (acc : Z) (x : Op * Z) : Z :=
  match fst x with
  | OpAdd => acc + snd x
  | OpSub => acc - snd x
  end.

Definition eval_ops (v0 : Z) (ops : list (Op * Z)) : Z := fold_left apply_op ops v0.

Definition ends_with_eof (toks : list Token) : Prop :=
  exists front t, toks = front ++ [t] /\ kind t = TK_EOF.

(** The lines of a listing that hold an instruction: those that start with
    a blank. *)
Definition instruction_lines (listing : list ascii) : list (list ascii) :=
  filter (fun l => match l with
                   | c :: _ => Ascii.eqb c space
                   | [] => false
                   end) (split_lines listing).

(** The accumulator after the instructions of [ops], with the wrap-around
    of the register after each of them. *)
Definition run_ops (rax : Z) (ops : list (Op * Z)) : Z :=
  fold_left (fun acc x => wrap64 (apply_op acc x)) ops rax.

(** ** The inputs of the grammar

    An expression as it is typed: a first literal and then operands, each a
    sign and a literal, with any amount of whitespace, none included,
    before each of them and at the end. *)

Record Operand : Type := mkOperand {
  blank_before_sign : list ascii;
  sign : Op;
  blank_before_literal : list ascii;
  literal : list ascii
}.

Record Expr : Type := mkExpr {
  leading_blank : list ascii;
  first_literal : list ascii;
  operands : list Operand;
  trailing_blank : list ascii
}.

Definition blank (ws : list ascii) : bool := forallb isspace ws.

Definition digits (ds : list ascii) : bool :=
  match ds with
  | [] => false
  | _ :: _ => forallb isdigit ds
  end.

Definition operand_shape (x : Operand) : bool :=
  blank (blank_before_sign x) && blank (blank_before_literal x) &&
  digits (literal x).

Definition expr_shape (e : Expr) : bool :=
  blank (leading_blank e) && digits (first_literal e) &&
  forallb operand_shape (operands e) && blank (trailing_blank e).

Definition in_int_range (e : Expr) : bool :=
  (dec_value (first_literal e) <=? INT_MAX) &&
  forallb (fun x => dec_value (literal x) <=? INT_MAX) (operands e).

Definition render_operand (x : Operand) : list ascii :=
  blank_before_sign x ++ [op_char (sign x)] ++ blank_before_literal x ++ literal x.

Definition render_operands (xs : list Operand) : list ascii :=
  concat (map render_operand xs).

(** The expression without what follows its last literal. *)
Definition render_body (e : Expr) : list ascii :=
  leading_blank e ++ first_literal e ++ render_operands (operands e).

Definition render (e : Expr) : list ascii := render_body e ++ trailing_blank e.

(** The value of an expression, its literals read in base 10 and the signs
    applied from left to right. *)
Definition eval (e : Expr) : Z :=
  eval_ops (dec_value (first_literal e))
           (map (fun x => (sign x, dec_value (literal x))) (operands e)).

(** The number a literal becomes in a token. *)
Definition int_of_digits (ds : list ascii) : Z :=
  to_int (Z.min (dec_value ds) LONG_MAX).

Definition ops_of (xs : list Operand) : list (Op * Z) :=
  map (fun x => (sign x, int_of_digits (literal x))) xs.

Definition no_digit_head (buf : list ascii) : Prop :=
  match buf with
  | c :: _ => isdigit c = false
  | [] => True
  end.

(** A character the lexer accepts. *)
Definition lexable (c : ascii) : bool :=
  is_nul c || isspace c || is_sign c || isdigit c.

(** A character of the text that the lexer accepts: whitespace, a sign or
    a digit. *)
Definition token_char (c : ascii) : bool :=
  isspace c || is_sign c || isdigit c.

(** What the process leaves when the loop of [main] ends in [r]. *)
Definition finish (r : Result unit) : option Outcome :=
  match r with
  | Returned _ s => Some (mkOutcome 0 (stdout s ++ asm_ret) (stderr s))
  | Exited st s => Some (mkOutcome st (stdout s) (stderr s))
  | Undefined | OutOfFuel => None
  end.

(** ** Sample inputs *)

(** "1 + 2 - 3" *)
Definition sample_expr : Expr :=
  mkExpr [] (text "1")
    [mkOperand (text " ") OpAdd (text " ") (text "2");
     mkOperand (text " ") OpSub (text " ") (text "3")] [].

(** "1 " before a further number *)
Definition sample_split : Expr := mkExpr [] (text "1") [] (text " ").

Definition sample_state : State :=
  mkState (text "12 + 3") [] [] [].

Definition sample_tokens : list Token :=
  [mkToken TK_NUM 12 0; mkToken TK_RESERVED 0 3; mkToken TK_NUM 3 5;
   mkToken TK_EOF 0 6].

(** ** Further notions about the code *)

(** The characters of a token: what the lexer passed over when it made
    it. *)
Definition token_text (buf : list ascii) (t : Token) : list ascii :=
  firstn (token_width buf t) (skipn (str t) buf).

(** A text without its whitespace. *)
Definition squeeze (l : list ascii) : list ascii :=
  filter (fun c => negb (isspace c)) l.

(** The offset of the first character of a buffer, before its terminator,
    that is neither whitespace nor a sign nor a digit. *)
Fixpoint first_bad (buf : list ascii) : option nat :=
  match buf with
  | [] => None
  | c :: buf' =>
      if is_nul c then None
      else if token_char c then option_map S (first_bad buf')
      else Some O
  end.

(** The three messages of the positioned diagnostics. *)
Definition known_message (msg : list ascii) : Prop :=
  msg = msg_cannot_tokenize \/ msg = msg_not_number \/ msg = msg_not_char "-".

(** What a token's fields say about its text: a number token stands on a
    run of digits and holds the [int] read from them, any other token
    holds the zero of [calloc]. *)
Definition token_value_ok (buf : list ascii) (t : Token) : Prop :=
  - 2^31 <= val t <= INT_MAX /\
  match kind t with
  | TK_NUM => digits (token_text buf t) = true /\
              val t = int_of_digits (token_text buf t)
  | _ => val t = 0
  end.

(** ** The grammar, token by token

    The tokens of an accepted input are a number, then pairs of a sign and
    a number, then the end marker: a number at every even place of the
    list, a sign or the end marker at every odd one. *)

(** The sign a token stands for, when it is a sign token on '+' or '-'. *)
Definition sign_of (buf : list ascii) (t : Token) : option Op :=
  match kind t with
  | TK_RESERVED =>
      if Ascii.eqb (char_at buf (str t)) "+" then Some OpAdd
      else if Ascii.eqb (char_at buf (str t)) "-" then Some OpSub
      else None
  | _ => None
  end.

(** The pairs of a sign and a number that a token list starts with, as
    many as there are. *)
Fixpoint matched_pairs (buf : list ascii) (toks : list Token) : list (Op * Z) :=
  match toks with
  | t1 :: t2 :: rest =>
      match sign_of buf t1 with
      | Some o =>
          if TokenKind_eqb (kind t2) TK_NUM
          then (o, val t2) :: matched_pairs buf rest
          else []
      | None => []
      end
  | _ => []
  end.

(** Whether a token can stand at place [i] of the list: [expect_number]
    takes a number at an even place; at an odd place [at_eof] takes the
    end marker and [consume('+')] or [expect('-')] a sign. *)
Definition fits_grammar (buf : list ascii) (i : nat) (t : Token) : bool :=
  if Nat.even i then TokenKind_eqb (kind t) TK_NUM
  else TokenKind_eqb (kind t) TK_EOF ||
       match sign_of buf t with Some _ => true | None => false end.

(** The first token that breaks the grammar, with its place in the list,
    when [toks] are the tokens from place [i] on. The end marker at an odd
    place ends the sentence: nothing is looked at after it. *)
Fixpoint first_break (buf : list ascii) (i : nat) (toks : list Token)
    : option (nat * Token) :=
  match toks with
  | [] => None
  | t :: rest =>
      if fits_grammar buf i t then
        if Nat.odd i && TokenKind_eqb (kind t) TK_EOF then None
        else first_break buf (S i) rest
      else Some (i, t)
  end.

(** What the program says of a break at place [i]: a number was expected
    at an even place, a sign at an odd one. *)
Definition break_message (i : nat) : list ascii :=
  if Nat.even i then msg_not_number else msg_not_char "-".

(** The instructions printed for the tokens that were matched: the load
    of the first number and one instruction for each pair after it. *)
Definition emitted (buf : list ascii) (toks : list Token) : list ascii :=
  match toks with
  | t :: rest =>
      if TokenKind_eqb (kind t) TK_NUM
      then asm_mov (val t) ++ asm_ops (matched_pairs buf rest)
      else []
  | [] => []
  end.

(** The run of lines none of which returns: the register after the last
    one, when each line could be executed and left the machine running. *)
Fixpoint falls_through (ls : list (list ascii)) (rax : Z) : option Z :=
  match ls with
  | [] => Some rax
  | l :: ls' =>
      match exec_line l rax with
      | Some (Running rax') => falls_through ls' rax'
      | _ => None
      end
  end.
(** * Proofs *)

(** ** The program at work *)

Example tokenize_sample : tokenize sample_state = Returned sample_tokens sample_state.
Proof. reflexivity. Qed.

Example dec_value_leading_zeros : dec_value (text "0042") = 42.
Proof. reflexivity. Qed.

Example listing_sum :
  listing_of "12 + 3 - 20" = Some ".intel_syntax noprefix
.globl main
main:
  mov rax, 12
  add rax, 3
  sub rax, 20
  ret
"%string.
Proof. reflexivity. Qed.

Example report_bad_character :
  report_of "1 + *" = Some "1 + *
    ^ トークナイズできません
"%string.
Proof. reflexivity. Qed.

Example report_at_offset_zero :
  report_of "+1" = Some "+1
 ^ 数ではありません
"%string.
Proof. reflexivity. Qed.

Example usage_error :
  run [text "9cc"] =
  Some (mkOutcome 1 [] (text "9cc: 引数の個数が正しくありません" ++ [newline])).
Proof. reflexivity. Qed.

(** ** Characters *)

Ltac each_ascii c :=
  destruct c as [[] [] [] [] [] [] [] []]; vm_compute; try reflexivity;
  try discriminate; auto.

Lemma isspace_not_nul c : isspace c = true -> is_nul c = false.
Proof. each_ascii c. Qed.

Lemma isspace_not_sign c : isspace c = true -> is_sign c = false.
Proof. each_ascii c. Qed.

Lemma isspace_not_digit c : isspace c = true -> isdigit c = false.
Proof. each_ascii c. Qed.

Lemma is_sign_not_nul c : is_sign c = true -> is_nul c = false.
Proof. each_ascii c. Qed.

Lemma is_sign_not_space c : is_sign c = true -> isspace c = false.
Proof. each_ascii c. Qed.

Lemma is_sign_not_digit c : is_sign c = true -> isdigit c = false.
Proof. each_ascii c. Qed.

Lemma isdigit_not_nul c : isdigit c = true -> is_nul c = false.
Proof. each_ascii c. Qed.

Lemma isdigit_not_space c : isdigit c = true -> isspace c = false.
Proof. each_ascii c. Qed.

Lemma isdigit_not_sign c : isdigit c = true -> is_sign c = false.
Proof. each_ascii c. Qed.

Lemma is_sign_cases c : is_sign c = true -> c = "+"%char \/ c = "-"%char.
Proof. each_ascii c. Qed.

Create HintDb ctype.
#[local] Hint Resolve isspace_not_nul isspace_not_sign isspace_not_digit
  is_sign_not_nul is_sign_not_space is_sign_not_digit
  isdigit_not_nul isdigit_not_space isdigit_not_sign : ctype.

Lemma digit_value_range c : isdigit c = true -> 0 <= digit_value c <= 9.
Proof.
  destruct c as [[] [] [] [] [] [] [] []]; vm_compute; try discriminate;
    intros _; split; discriminate.
Qed.

(** ** Runs of digits *)

Lemma span_digits_spec buf ds rest :
  span_digits buf = (ds, rest) ->
  buf = ds ++ rest /\ forallb isdigit ds = true /\
  match rest with c :: _ => isdigit c = false | [] => True end.
Proof.
  revert ds rest. induction buf as [|c buf IH]; simpl; intros ds rest H.
  - inversion H; subst; auto.
  - destruct (isdigit c) eqn:Hc.
    + destruct (span_digits buf) as [ds' rest'] eqn:Hs.
      inversion H; subst; clear H.
      destruct (IH _ _ eq_refl) as (-> & Hall & Hrest).
      simpl. rewrite Hc, Hall. auto.
    + inversion H; subst; simpl; auto.
Qed.

Lemma span_digits_app ds rest :
  forallb isdigit ds = true ->
  match rest with c :: _ => isdigit c = false | [] => True end ->
  span_digits (ds ++ rest) = (ds, rest).
Proof.
  intros Hds Hrest. induction ds as [|d ds IH]; simpl in *.
  - destruct rest as [|c rest]; [reflexivity|]. simpl. now rewrite Hrest.
  - apply andb_true_iff in Hds as [Hd Hds]. now rewrite Hd, IH.
Qed.

Lemma span_digits_head c buf ds rest :
  isdigit c = true -> span_digits (c :: buf) = (ds, rest) ->
  exists ds', ds = c :: ds' /\ span_digits buf = (ds', rest).
Proof.
  simpl. intros ->. destruct (span_digits buf) as [ds' rest'].
  intros H; inversion H; subst. eauto.
Qed.

Lemma span_digits_length buf ds rest :
  span_digits buf = (ds, rest) -> length buf = (length ds + length rest)%nat.
Proof.
  intros H. apply span_digits_spec in H as (-> & _). apply length_app.
Qed.

(** ** The lexer follows the relation *)

Lemma error_at_eq {A} loc msg s :
  @error_at A loc msg s =
  Exited 1 (with_stderr s (stderr s ++ diagnostic (user_input s) loc msg)).
Proof.
  unfold error_at, diagnostic, with_stderr, bind, get_user_input,
    fprintf_stderr, exit. simpl.
  now rewrite <- !app_assoc.
Qed.

Lemma tokenize_loop_lex p buf toks :
  lex p buf toks ->
  forall fuel cur s, (length buf < fuel)%nat ->
  tokenize_loop fuel p buf cur s = Returned (rev cur ++ toks) s.
Proof.
  induction 1 as [p buf Hend | p c buf toks Hc _ IH | p c buf toks Hc _ IH
                 | p c buf ds rest toks Hc Hs _ IH];
    intros fuel cur s Hfuel; (destruct fuel as [|fuel]; [lia|]).
  - destruct buf as [|c buf]; simpl in *.
    + reflexivity.
    + now rewrite Hend.
  - simpl in *. rewrite (isspace_not_nul _ Hc), Hc. apply IH. lia.
  - simpl in *. rewrite (is_sign_not_nul _ Hc), (is_sign_not_space _ Hc).
    unfold is_sign in Hc. rewrite Hc, IH by lia.
    unfold new_token. simpl. now rewrite <- app_assoc.
  - pose proof (span_digits_length _ _ _ Hs) as Hlen.
    destruct (span_digits_head _ _ _ _ Hc Hs) as (ds' & -> & _).
    cbn [tokenize_loop].
    rewrite (isdigit_not_nul _ Hc), (isdigit_not_space _ Hc).
    pose proof (isdigit_not_sign _ Hc) as Hsg. unfold is_sign in Hsg.
    rewrite Hsg, Hc. unfold strtol. rewrite Hs.
    rewrite IH by (simpl in *; lia).
    unfold new_token, set_val, num_token. simpl. now rewrite <- app_assoc.
Qed.

Lemma tokenize_loop_lex_error p buf q :
  lex_error p buf q ->
  forall fuel cur s, (length buf < fuel)%nat ->
  tokenize_loop fuel p buf cur s = error_at q msg_cannot_tokenize s.
Proof.
  induction 1 as [p c buf H0 H1 H2 H3 | p c buf q Hc _ IH | p c buf q Hc _ IH
                 | p c buf ds rest q Hc Hs _ IH];
    intros fuel cur s Hfuel; (destruct fuel as [|fuel]; [lia|]).
  - cbn [tokenize_loop]. unfold is_sign in H2. now rewrite H0, H1, H2, H3.
  - simpl in *. rewrite (isspace_not_nul _ Hc), Hc. apply IH. lia.
  - simpl in *. rewrite (is_sign_not_nul _ Hc), (is_sign_not_space _ Hc).
    unfold is_sign in Hc. rewrite Hc. apply IH. lia.
  - pose proof (span_digits_length _ _ _ Hs) as Hlen.
    destruct (span_digits_head _ _ _ _ Hc Hs) as (ds' & -> & _).
    cbn [tokenize_loop].
    rewrite (isdigit_not_nul _ Hc), (isdigit_not_space _ Hc).
    pose proof (isdigit_not_sign _ Hc) as Hsg. unfold is_sign in Hsg.
    rewrite Hsg, Hc. unfold strtol. rewrite Hs.
    apply IH. simpl in *. lia.
Qed.

(** Every scan ends in one of the two ways. *)
Lemma lex_total buf :
  forall p, (exists toks, lex p buf toks) \/ (exists q, lex_error p buf q).
Proof.
  remember (length buf) as n eqn:Hn. revert buf Hn.
  induction n as [n IH] using lt_wf_ind. intros buf Hn p.
  destruct buf as [|c buf].
  { left. eexists. now apply lex_eof. }
  destruct (is_nul c) eqn:H0.
  { left. eexists. now apply lex_eof. }
  destruct (isspace c) eqn:H1.
  { destruct (IH (length buf) ltac:(simpl in Hn; lia) buf eq_refl (S p))
      as [[toks H] | [q H]].
    - left. eexists. eapply lex_space; eauto.
    - right. eexists. eapply lex_error_space; eauto. }
  destruct (is_sign c) eqn:H2.
  { destruct (IH (length buf) ltac:(simpl in Hn; lia) buf eq_refl (S p))
      as [[toks H] | [q H]].
    - left. eexists. eapply lex_sign; eauto.
    - right. eexists. eapply lex_error_sign; eauto. }
  destruct (isdigit c) eqn:H3.
  { destruct (span_digits (c :: buf)) as [ds rest] eqn:Hs.
    pose proof (span_digits_length _ _ _ Hs) as Hlen.
    destruct (span_digits_head _ _ _ _ H3 Hs) as (ds' & -> & _).
    destruct (IH (length rest) ltac:(simpl in *; lia) rest eq_refl
                (p + length (c :: ds'))%nat) as [[toks H] | [q H]].
    - left. eexists. eapply lex_digits; eauto.
    - right. eexists. eapply lex_error_digits; eauto. }
  right. eexists. now apply lex_error_here.
Qed.

Lemma tokenize_cases s :
  (exists toks, lex 0 (user_input s) toks /\ tokenize s = Returned toks s) \/
  (exists q, lex_error 0 (user_input s) q /\
             tokenize s = error_at q msg_cannot_tokenize s).
Proof.
  unfold tokenize, bind, get_user_input.
  destruct (lex_total (user_input s) 0%nat) as [[toks H] | [q H]].
  - left. exists toks. split; [assumption|].
    now rewrite (tokenize_loop_lex _ _ _ H) by lia.
  - right. exists q. split; [assumption|].
    now rewrite (tokenize_loop_lex_error _ _ _ H) by lia.
Qed.

Lemma tokenize_returned s toks s' :
  tokenize s = Returned toks s' -> s' = s /\ lex 0 (user_input s) toks.
Proof.
  destruct (tokenize_cases s) as [(toks0 & H & ->) | (q & H & ->)].
  - intros E; inversion E; subst; auto.
  - rewrite error_at_eq. discriminate.
Qed.

(** ** Invariants of the token sequence *)

Lemma c_string_app pre buf :
  no_nul pre -> c_string (pre ++ buf) = pre ++ c_string buf.
Proof.
  induction 1 as [|c pre Hc _ IH]; simpl; [reflexivity|].
  now rewrite Hc, IH.
Qed.

Lemma c_string_terminator buf : at_terminator buf -> c_string buf = [].
Proof. destruct buf as [|c buf]; simpl; [reflexivity|]. now intros ->. Qed.

Lemma c_string_no_nul l : no_nul l -> c_string l = l.
Proof.
  intros H. rewrite <- (app_nil_r l) at 1. rewrite c_string_app by assumption.
  simpl. apply app_nil_r.
Qed.

Lemma no_nul_digits ds : forallb isdigit ds = true -> no_nul ds.
Proof.
  induction ds as [|d ds IH]; simpl; intros H; [constructor|].
  apply andb_true_iff in H as [Hd Hds].
  constructor; [auto with ctype | now apply IH].
Qed.

Lemma no_nul_spaces ws : forallb isspace ws = true -> no_nul ws.
Proof.
  induction ws as [|c ws IH]; simpl; intros H; [constructor|].
  apply andb_true_iff in H as [Hd Hds].
  constructor; [auto with ctype | now apply IH].
Qed.

Lemma no_nul_app l1 l2 : no_nul l1 -> no_nul l2 -> no_nul (l1 ++ l2).
Proof. intros H1 H2. apply Forall_app; auto. Qed.

Lemma skipn_length_app {A} (l1 l2 : list A) : skipn (length l1) (l1 ++ l2) = l2.
Proof. induction l1; simpl; auto. Qed.

Lemma char_at_app pre c buf : char_at (pre ++ c :: buf) (length pre) = c.
Proof. unfold char_at. apply nth_middle. Qed.

Lemma lex_nonempty p buf toks : lex p buf toks -> toks <> [].
Proof. induction 1; try discriminate; assumption. Qed.

Lemma lex_invariants p buf toks :
  lex p buf toks ->
  forall pre, length pre = p -> no_nul pre ->
  (exists front,
      toks = front ++ [mkToken TK_EOF 0 (strlen (pre ++ buf))] /\
      Forall (fun t => kind t <> TK_EOF) front) /\
  in_order (pre ++ buf) toks /\
  Forall (fun t => (p <= str t)%nat) toks /\
  Forall (sign_token_ok (pre ++ buf)) toks.
Proof.
  induction 1 as [p buf Hend | p c buf toks Hc Hlex IH | p c buf toks Hc Hlex IH
                 | p c buf ds rest toks Hc Hs Hlex IH];
    intros pre Hp Hpre.
  - repeat split.
    + exists []. split; [|constructor]. simpl. unfold strlen.
      rewrite c_string_app, (c_string_terminator _ Hend), app_nil_r by assumption.
      now rewrite Hp.
    + repeat constructor.
    + repeat constructor. discriminate.
  - specialize (IH (pre ++ [c])).
    rewrite <- app_assoc in IH. simpl in IH.
    destruct IH as (Hlast & Hord & Hpos & Hsig).
    + rewrite length_app. simpl. lia.
    + apply no_nul_app; [assumption|]. repeat constructor.
      auto with ctype.
    + repeat split; try assumption.
      eapply Forall_impl; [|exact Hpos]. simpl. intros; lia.
  - specialize (IH (pre ++ [c])).
    rewrite <- app_assoc in IH. simpl in IH.
    destruct IH as ((front & -> & Hfront) & Hord & Hpos & Hsig).
    + rewrite length_app. simpl. lia.
    + apply no_nul_app; [assumption|]. repeat constructor.
      auto with ctype.
    + repeat split.
      * exists (mkToken TK_RESERVED 0 p :: front). split; [reflexivity|].
        constructor; [discriminate | assumption].
      * pose proof (lex_nonempty _ _ _ Hlex) as Hne.
        destruct (front ++ _) as [|t' toks'] eqn:E; [congruence|].
        inversion Hpos; subst. cbn [in_order]. unfold token_width. simpl.
        repeat split; try assumption; lia.
      * constructor; [simpl; lia|].
        eapply Forall_impl; [|exact Hpos]. simpl. intros; lia.
      * constructor; [|assumption].
        intros _. simpl. rewrite <- Hp, char_at_app.
        split; [now apply is_sign_cases | reflexivity].
  - destruct (span_digits_spec _ _ _ Hs) as (Hbuf & Hds & _).
    destruct (span_digits_head _ _ _ _ Hc Hs) as (ds' & Eds & _).
    specialize (IH (pre ++ ds)).
    rewrite <- app_assoc, <- Hbuf in IH.
    destruct IH as ((front & -> & Hfront) & Hord & Hpos & Hsig).
    + rewrite length_app. lia.
    + apply no_nul_app; [assumption|]. now apply no_nul_digits.
    + repeat split.
      * exists (num_token ds p :: front). split; [reflexivity|].
        constructor; [discriminate | assumption].
      * pose proof (lex_nonempty _ _ _ Hlex) as Hne.
        destruct (front ++ _) as [|t' toks'] eqn:E; [congruence|].
        inversion Hpos; subst.
        cbn [in_order]. repeat split; try assumption.
        -- simpl in *. lia.
        -- unfold token_width. simpl kind. simpl str.
           rewrite skipn_length_app, Hs. simpl fst. lia.
      * constructor; [simpl; lia|].
        eapply Forall_impl; [|exact Hpos]. simpl. intros; lia.
      * constructor; [|assumption]. intros K. discriminate K.
Qed.

(** C4. Whenever the lexer succeeds, the token sequence is not empty; it
    ends in one end-of-input token, the only one, placed at the length of
    the input; the tokens are in the order of the text and no two of them
    overlap; and every sign token stands on a '+' or a '-' and has no
    numeric value (its [val] is the zero of [calloc]). *)
Theorem tokenize_invariants (s s' : State) (toks : list Token) :
  tokenize s = Returned toks s' ->
  toks <> [] /\
  (exists front,
      toks = front ++ [mkToken TK_EOF 0 (strlen (user_input s))] /\
      Forall (fun t => kind t <> TK_EOF) front) /\
  in_order (user_input s) toks /\
  Forall (sign_token_ok (user_input s)) toks.
Proof.
  intros H. apply tokenize_returned in H as [-> Hlex].
  split; [eapply lex_nonempty; eassumption|].
  destruct (lex_invariants _ _ _ Hlex [] eq_refl (Forall_nil _))
    as (Hlast & Hord & _ & Hsig).
  auto.
Qed.

(** ** Machine integers *)

Lemma dec_value_snoc ds d : dec_value (ds ++ [d]) = 10 * dec_value ds + digit_value d.
Proof. unfold dec_value. now rewrite fold_left_app. Qed.

Lemma dec_value_nonneg ds : forallb isdigit ds = true -> 0 <= dec_value ds.
Proof.
  induction ds as [|d ds IH] using rev_ind; intros H.
  - unfold dec_value. simpl. lia.
  - rewrite forallb_app in H. apply andb_true_iff in H as [H1 H2].
    simpl in H2. rewrite andb_true_r in H2.
    rewrite dec_value_snoc.
    pose proof (digit_value_range _ H2). specialize (IH H1). lia.
Qed.

Lemma to_int_small v : - 2^31 <= v <= INT_MAX -> to_int v = v.
Proof.
  unfold to_int, INT_MAX. intros H.
  rewrite Z.mod_small; lia.
Qed.

Lemma to_int_range v : - 2^31 <= to_int v <= INT_MAX.
Proof.
  unfold to_int, INT_MAX.
  pose proof (Z.mod_pos_bound (v + 2^31) (2^32) ltac:(lia)). lia.
Qed.

Lemma strtol_in_range ds :
  forallb isdigit ds = true -> dec_value ds <= INT_MAX ->
  to_int (Z.min (dec_value ds) LONG_MAX) = dec_value ds.
Proof.
  intros Hds Hmax. pose proof (dec_value_nonneg _ Hds).
  unfold INT_MAX, LONG_MAX in *.
  rewrite Z.min_l by lia. apply to_int_small. unfold INT_MAX. lia.
Qed.

(** The value of a run of digits is the number that the library's reader
    of decimal numerals gives for it. *)







(** ** One turn of the lexer's loop *)




(** ** The cursor *)

(** C7. When the current token is not a sign token on the character [op],
    [consume] returns false and the state is the one it was called in;
    otherwise it returns true and the cursor has moved to the next token,
    everything else being as before. *)
Theorem consume_spec (op : ascii) (buf : list ascii) (t : Token)
    (next : list Token) (out err : list ascii) :
  (~ (kind t = TK_RESERVED /\ char_at buf (str t) = op) ->
   consume op (mkState buf (t :: next) out err) =
   Returned false (mkState buf (t :: next) out err)) /\
  (kind t = TK_RESERVED /\ char_at buf (str t) = op ->
   consume op (mkState buf (t :: next) out err) =
   Returned true (mkState buf next out err)).
Proof.
  unfold consume, bind, current, get_user_input, not_reserved, advance, ret.
  simpl. split.
  - intros H. destruct (kind t); simpl; try reflexivity.
    destruct (Ascii.eqb_spec (char_at buf (str t)) op) as [E|E]; simpl.
    + exfalso. apply H. auto.
    + reflexivity.
  - intros [K E]. rewrite K, E, Ascii.eqb_refl. reflexivity.
Qed.

Lemma expect_number_fails buf t next out err :
  kind t <> TK_NUM ->
  expect_number (mkState buf (t :: next) out err) =
  Exited 1 (mkState buf (t :: next) out
              (err ++ diagnostic buf (str t) msg_not_number)).
Proof.
  intros K. unfold expect_number. unfold bind at 1. unfold current at 1.
  cbn [token]. unfold bind at 1.
  destruct (kind t); try congruence; cbn [TokenKind_eqb negb];
    now rewrite error_at_eq.
Qed.

Lemma expect_number_returns buf t next out err :
  kind t = TK_NUM ->
  expect_number (mkState buf (t :: next) out err) =
  Returned (val t) (mkState buf next out err).
Proof.
  intros K. unfold expect_number, bind, current, advance, ret. simpl.
  now rewrite K.
Qed.

(** ** The whole program *)

Lemma main_unfold prog arg :
  main [prog; arg] initial_state =
  match tokenize (mkState arg [] [] []) with
  | Returned toks _ =>
      (v <- expect_number ;;
       printf (asm_mov v) ;;
       main_loop (length toks) ;;
       printf asm_ret ;;
       ret 0) (mkState arg toks prologue [])
  | Exited st s => Exited st s
  | Undefined => Undefined
  | OutOfFuel => OutOfFuel
  end.
Proof.
  unfold main, initial_state. unfold bind at 1. unfold set_user_input at 1.
  cbn [user_input token stdout stderr]. unfold bind at 1.
  destruct (tokenize_cases (mkState arg [] [] [])) as [(toks & H & ->) | (q & H & ->)].
  - unfold prologue. do 4 (unfold bind at 1).
    unfold set_token, printf. cbn [user_input token stdout stderr app].
    now rewrite <- app_assoc.
  - now rewrite error_at_eq.
Qed.

Lemma lex_spaces ws p buf toks :
  forallb isspace ws = true ->
  lex (p + length ws) buf toks -> lex p (ws ++ buf) toks.
Proof.
  revert p. induction ws as [|c ws IH]; simpl; intros p Hws H.
  - now rewrite Nat.add_0_r in H.
  - apply andb_true_iff in Hws as [Hc Hws].
    apply lex_space; [assumption|]. apply IH; [assumption|].
    now rewrite Nat.add_succ_comm.
Qed.

Lemma tokenize_lex arg toks :
  lex 0 arg toks ->
  tokenize (mkState arg [] [] []) = Returned toks (mkState arg [] [] []).
Proof.
  intros H. unfold tokenize, bind, get_user_input. cbn [user_input].
  now rewrite (tokenize_loop_lex _ _ _ H) by lia.
Qed.

Lemma tokenize_lex_error arg q :
  lex_error 0 arg q ->
  tokenize (mkState arg [] [] []) =
  Exited 1 (mkState arg [] [] (diagnostic arg q msg_cannot_tokenize)).
Proof.
  intros H. unfold tokenize, bind, get_user_input. cbn [user_input].
  now rewrite (tokenize_loop_lex_error _ _ _ H), error_at_eq by lia.
Qed.

(** C8. When the current token is not a number, [expect_number] ends the
    process with status 1 after the diagnostic "not a number" placed at
    that token; when it is one, the call returns its value and the cursor
    moves on. For the input "1 + + 2" the process ends with status 1 and
    the diagnostic is placed at offset 4, the offset of the second '+'. *)
Theorem expect_number_spec (buf : list ascii) (t : Token) (next : list Token)
    (out err : list ascii) :
  (kind t <> TK_NUM ->
   expect_number (mkState buf (t :: next) out err) =
   Exited 1 (mkState buf (t :: next) out
               (err ++ diagnostic buf (str t) msg_not_number))) /\
  (kind t = TK_NUM ->
   expect_number (mkState buf (t :: next) out err) =
   Returned (val t) (mkState buf next out err)) /\
  compile "1 + + 2" =
    Some (mkOutcome 1 (prologue ++ asm_mov 1)
            (diagnostic (text "1 + + 2") 4 msg_not_number)) /\
  char_at (text "1 + + 2") 2 = "+"%char /\
  char_at (text "1 + + 2") 4 = "+"%char.
Proof.
  split; [apply expect_number_fails|].
  split; [apply expect_number_returns|].
  repeat split; vm_compute; reflexivity.
Qed.

(** C10. For an input made of whitespace only, the empty one included, the
    lexer returns the end-of-input token alone, placed at the end of the
    input, which is its length. The first call of [expect_number] then ends the process with
    status 1 and the diagnostic "not a number" at that offset: only the
    prologue has been printed, and the loop of [main] is never entered. *)
Theorem blank_input (prog ws : list ascii) :
  forallb isspace ws = true ->
  strlen ws = length ws /\
  tokenize (mkState ws [] [] []) =
    Returned [mkToken TK_EOF 0 (length ws)] (mkState ws [] [] []) /\
  expect_number (mkState ws [mkToken TK_EOF 0 (length ws)] prologue []) =
    Exited 1 (mkState ws [mkToken TK_EOF 0 (length ws)] prologue
                (diagnostic ws (length ws) msg_not_number)) /\
  run [prog; ws] =
    Some (mkOutcome 1 prologue (diagnostic ws (length ws) msg_not_number)).
Proof.
  intros Hws.
  assert (Hlex : lex 0 ws [mkToken TK_EOF 0 (length ws)]).
  { rewrite <- (app_nil_r ws) at 1. apply lex_spaces; [assumption|].
    now apply lex_eof. }
  split.
  { unfold strlen. now rewrite c_string_no_nul by now apply no_nul_spaces. }
  split; [now apply tokenize_lex|].
  split; [now rewrite expect_number_fails|].
  unfold run. rewrite main_unfold, (tokenize_lex _ _ Hlex).
  unfold bind at 1. now rewrite expect_number_fails.
Qed.

Lemma pad_left_space pos : pad_left pos [space] = repeat space (Nat.max pos 1).
Proof.
  unfold pad_left. destruct pos as [|pos]; [reflexivity|].
  simpl length. replace (Nat.max (S pos) 1) with (pos + 1)%nat by lia.
  rewrite repeat_app. simpl. now rewrite Nat.sub_0_r.
Qed.

(** C5, where the code departs from it. [error_at] writes the input line,
    then [max pos 1] spaces, the caret and the message, and ends the
    process with status 1. For [pos >= 1] the caret is in column [pos]; for
    [pos = 0] one space is written and the caret is in column 1. The input
    "1 + *" is reported with the caret under the '*' at offset 4, the input
    "+1" with the caret under the '1' although the error is at offset 0. *)
Theorem error_at_caret_column :
  (forall (A : Type) (pos : nat) (msg : list ascii) (s : State),
     @error_at A pos msg s =
     Exited 1 (with_stderr s
       (stderr s ++ c_string (user_input s) ++ [newline] ++
        repeat space (Nat.max pos 1) ++ text "^ " ++ msg ++ [newline]))) /\
  compile "1 + *" =
    Some (mkOutcome 1 [] (text "1 + *" ++ [newline] ++ repeat space 4 ++
                          text "^ " ++ msg_cannot_tokenize ++ [newline])) /\
  compile "+1" =
    Some (mkOutcome 1 prologue (text "+1" ++ [newline] ++ repeat space 1 ++
                                text "^ " ++ msg_not_number ++ [newline])).
Proof.
  split.
  - intros A pos msg s. rewrite error_at_eq. unfold diagnostic.
    now rewrite pad_left_space.
  - split; vm_compute; reflexivity.
Qed.

(** ** The loop of [main] *)

Lemma main_loop_eof fuel buf t rest out err :
  kind t = TK_EOF ->
  main_loop (S fuel) (mkState buf (t :: rest) out err) =
  Returned tt (mkState buf (t :: rest) out err).
Proof.
  intros K. cbn [main_loop]. unfold bind at 1. unfold at_eof, bind, current, ret.
  cbn [token]. now rewrite K.
Qed.

Lemma not_reserved_false buf t op :
  not_reserved buf t op = false <->
  kind t = TK_RESERVED /\ char_at buf (str t) = op.
Proof.
  unfold not_reserved. rewrite orb_false_iff, !negb_false_iff.
  rewrite Ascii.eqb_eq. destruct (kind t); simpl; intuition congruence.
Qed.

Lemma main_loop_pair fuel buf t1 t2 toks o out err :
  kind t1 = TK_RESERVED -> char_at buf (str t1) = op_char o -> kind t2 = TK_NUM ->
  main_loop (S fuel) (mkState buf (t1 :: t2 :: toks) out err) =
  main_loop fuel (mkState buf toks (out ++ asm_op (o, val t2)) err).
Proof.
  intros K1 C K2. cbn [main_loop]. unfold bind at 1.
  unfold at_eof at 1, bind at 1, current at 1, ret at 1. cbn [token].
  rewrite K1. cbn [TokenKind_eqb]. unfold bind at 1.
  unfold consume at 1, bind at 1, current at 1. cbn [token].
  unfold bind at 1, get_user_input at 1. cbn [user_input].
  destruct o; cbn [op_char] in C.
  - assert (N : not_reserved buf t1 "+" = false) by (apply not_reserved_false; auto).
    rewrite N. unfold bind at 1, advance at 1, ret at 1. cbn [token user_input stdout stderr].
    unfold bind at 1. rewrite expect_number_returns by assumption.
    unfold bind at 1, printf at 1. cbn [token user_input stdout stderr].
    reflexivity.
  - assert (N : not_reserved buf t1 "+" = true).
    { unfold not_reserved. rewrite C. apply orb_true_r. }
    rewrite N. unfold ret at 1. unfold bind at 1.
    unfold expect at 1, bind at 1, current at 1. cbn [token].
    unfold bind at 1, get_user_input at 1. cbn [user_input].
    assert (N' : not_reserved buf t1 "-" = false) by (apply not_reserved_false; auto).
    rewrite N'. unfold bind at 1, ret at 1, advance at 1.
    cbn [token user_input stdout stderr].
    unfold bind at 1. rewrite expect_number_returns by assumption.
    unfold bind at 1, printf at 1. cbn [token user_input stdout stderr].
    reflexivity.
Qed.

Lemma asm_ops_cons x ops : asm_ops (x :: ops) = asm_op x ++ asm_ops ops.
Proof. reflexivity. Qed.

Lemma main_loop_steps buf toks ops tail :
  operand_tokens buf toks ops tail ->
  forall fuel out err,
  main_loop (length ops + fuel) (mkState buf toks out err) =
  main_loop fuel (mkState buf tail (out ++ asm_ops ops) err).
Proof.
  induction 1 as [tail | t1 t2 toks o ops tail K1 C K2 _ IH]; intros fuel out err.
  - unfold asm_ops. simpl. now rewrite app_nil_r.
  - cbn [length Nat.add]. rewrite (main_loop_pair _ _ _ _ _ o) by assumption.
    rewrite IH, asm_ops_cons. now rewrite <- app_assoc.
Qed.

Lemma operand_tokens_length buf toks ops tail :
  operand_tokens buf toks ops tail ->
  length toks = (2 * length ops + length tail)%nat.
Proof. induction 1; simpl in *; lia. Qed.

Lemma operand_tokens_app buf toks ops tail :
  operand_tokens buf toks ops tail ->
  exists front, toks = front ++ tail /\ length front = (2 * length ops)%nat /\
    Forall (fun t => kind t <> TK_EOF) front.
Proof.
  induction 1 as [tail | t1 t2 toks o ops tail K1 C K2 _ (front & -> & L & F)].
  - exists []. repeat split; constructor.
  - exists (t1 :: t2 :: front). repeat split; [simpl; lia|].
    repeat constructor; congruence || assumption.
Qed.

Lemma at_eof_eq buf t rest out err :
  at_eof (mkState buf (t :: rest) out err) =
  Returned (TokenKind_eqb (kind t) TK_EOF) (mkState buf (t :: rest) out err).
Proof. reflexivity. Qed.

Lemma consume_eq op buf t rest out err :
  consume op (mkState buf (t :: rest) out err) =
  if not_reserved buf t op then Returned false (mkState buf (t :: rest) out err)
  else Returned true (mkState buf rest out err).
Proof.
  unfold consume, bind, current, get_user_input. cbn [token user_input].
  now destruct (not_reserved buf t op).
Qed.

Lemma expect_eq op buf t rest out err :
  expect op (mkState buf (t :: rest) out err) =
  if not_reserved buf t op
  then Exited 1 (mkState buf (t :: rest) out
                   (err ++ diagnostic buf (str t) (msg_not_char op)))
  else Returned tt (mkState buf rest out err).
Proof.
  unfold expect. unfold bind at 1, current at 1. cbn [token].
  unfold bind at 1, get_user_input at 1. cbn [user_input].
  unfold bind at 1.
  destruct (not_reserved buf t op); [now rewrite error_at_eq | reflexivity].
Qed.

Lemma kind_not_eof t : kind t <> TK_EOF -> TokenKind_eqb (kind t) TK_EOF = false.
Proof. destruct (kind t); simpl; congruence. Qed.

Lemma main_loop_bad_operand fuel buf t1 t2 toks o out err :
  kind t1 = TK_RESERVED -> char_at buf (str t1) = op_char o -> kind t2 <> TK_NUM ->
  main_loop (S fuel) (mkState buf (t1 :: t2 :: toks) out err) =
  Exited 1 (mkState buf (t2 :: toks) out
              (err ++ diagnostic buf (str t2) msg_not_number)).
Proof.
  intros K1 C K2. cbn [main_loop]. unfold bind at 1. rewrite at_eof_eq.
  rewrite kind_not_eof by congruence. unfold bind at 1. rewrite consume_eq.
  destruct o; cbn [op_char] in C.
  - assert (N : not_reserved buf t1 "+" = false) by (apply not_reserved_false; auto).
    rewrite N. unfold bind at 1. now rewrite expect_number_fails.
  - assert (N : not_reserved buf t1 "+" = true).
    { unfold not_reserved. rewrite C. apply orb_true_r. }
    assert (N' : not_reserved buf t1 "-" = false) by (apply not_reserved_false; auto).
    rewrite N. unfold bind at 1. rewrite expect_eq, N'.
    unfold bind at 1. now rewrite expect_number_fails.
Qed.

Lemma main_loop_bad_sign fuel buf t toks out err :
  kind t <> TK_EOF ->
  not_reserved buf t "+" = true -> not_reserved buf t "-" = true ->
  main_loop (S fuel) (mkState buf (t :: toks) out err) =
  Exited 1 (mkState buf (t :: toks) out
              (err ++ diagnostic buf (str t) (msg_not_char "-"))).
Proof.
  intros K N N'. cbn [main_loop]. unfold bind at 1. rewrite at_eof_eq.
  rewrite kind_not_eof by assumption. unfold bind at 1. rewrite consume_eq, N.
  unfold bind at 1. now rewrite expect_eq, N'.
Qed.

Lemma ends_with_eof_tail t rest :
  ends_with_eof (t :: rest) -> kind t <> TK_EOF -> ends_with_eof rest.
Proof.
  intros (front & e & E & K) Kt.
  destruct front as [|t' front]; simpl in E; inversion E; subst.
  - congruence.
  - exists front, e. auto.
Qed.

Lemma ends_with_eof_nonempty toks : ends_with_eof toks -> toks <> [].
Proof. intros (front & e & -> & _). now destruct front. Qed.

(** The loop either reaches the end-of-input token, having printed one
    instruction for each pair of tokens it passed, or ends the process
    with a diagnostic after the instructions of the pairs it matched. *)
Lemma main_loop_cases fuel :
  forall buf toks out err,
  ends_with_eof toks -> (length toks <= fuel)%nat ->
  exists ops tail,
    operand_tokens buf toks ops tail /\
    ((exists t rest, tail = t :: rest /\ kind t = TK_EOF /\
        main_loop fuel (mkState buf toks out err) =
        Returned tt (mkState buf tail (out ++ asm_ops ops) err)) \/
     (exists cur pos msg,
        (msg = msg_not_number \/ msg = msg_not_char "-") /\
        main_loop fuel (mkState buf toks out err) =
        Exited 1 (mkState buf cur (out ++ asm_ops ops)
                    (err ++ diagnostic buf pos msg)))).
Proof.
  induction fuel as [|fuel IH]; intros buf toks out err Hend Hlen.
  { apply ends_with_eof_nonempty in Hend. destruct toks; simpl in *; [congruence | lia]. }
  destruct toks as [|t rest]; [now apply ends_with_eof_nonempty in Hend|].
  destruct (TokenKind_eqb (kind t) TK_EOF) eqn:K.
  { assert (K' : kind t = TK_EOF) by (destruct (kind t); simpl in K; congruence).
    exists [], (t :: rest). split; [constructor|]. left. exists t, rest.
    repeat split; [assumption|]. rewrite main_loop_eof by assumption.
    unfold asm_ops. simpl. now rewrite app_nil_r. }
  assert (K' : kind t <> TK_EOF) by (intros E; rewrite E in K; discriminate).
  pose proof (ends_with_eof_tail _ _ Hend K') as Hrest.
  assert (Hsign : forall o, kind t = TK_RESERVED -> char_at buf (str t) = op_char o ->
    exists ops tail,
    operand_tokens buf (t :: rest) ops tail /\
    ((exists t0 rest0, tail = t0 :: rest0 /\ kind t0 = TK_EOF /\
        main_loop (S fuel) (mkState buf (t :: rest) out err) =
        Returned tt (mkState buf tail (out ++ asm_ops ops) err)) \/
     (exists cur pos msg,
        (msg = msg_not_number \/ msg = msg_not_char "-") /\
        main_loop (S fuel) (mkState buf (t :: rest) out err) =
        Exited 1 (mkState buf cur (out ++ asm_ops ops)
                    (err ++ diagnostic buf pos msg))))).
  { intros o Kt C.
    destruct rest as [|t2 rest']; [now apply ends_with_eof_nonempty in Hrest|].
    destruct (TokenKind_eqb (kind t2) TK_NUM) eqn:K2.
    - assert (K2' : kind t2 = TK_NUM) by (destruct (kind t2); simpl in K2; congruence).
      assert (Hrest' : ends_with_eof rest').
      { apply (ends_with_eof_tail t2); [assumption | congruence]. }
      destruct (IH buf rest' (out ++ asm_op (o, val t2)) err Hrest'
                  ltac:(simpl in Hlen; lia))
        as (ops & tail & Hops & Hres).
      exists ((o, val t2) :: ops), tail.
      split; [now constructor|].
      rewrite (main_loop_pair _ _ _ _ _ o) by assumption.
      rewrite asm_ops_cons, app_assoc. exact Hres.
    - assert (K2' : kind t2 <> TK_NUM) by (intros E; rewrite E in K2; discriminate).
      exists [], (t :: t2 :: rest'). split; [constructor|]. right.
      exists (t2 :: rest'), (str t2), msg_not_number. split; [now left|].
      rewrite (main_loop_bad_operand _ _ _ _ _ o) by assumption.
      unfold asm_ops. simpl. now rewrite app_nil_r. }
  destruct (not_reserved buf t "+") eqn:N.
  2:{ apply not_reserved_false in N as [Kt C]. now apply (Hsign OpAdd). }
  destruct (not_reserved buf t "-") eqn:N'.
  2:{ apply not_reserved_false in N' as [Kt C]. now apply (Hsign OpSub). }
  exists [], (t :: rest). split; [constructor|]. right.
  exists (t :: rest), (str t), (msg_not_char "-"). split; [now right|].
  rewrite main_loop_bad_sign by assumption.
  unfold asm_ops. simpl. now rewrite app_nil_r.
Qed.

Lemma eof_is_last (front l1 rest0 : list Token) (eof e : Token) :
  front ++ [eof] = l1 ++ e :: rest0 ->
  Forall (fun t => kind t <> TK_EOF) front -> kind e = TK_EOF ->
  rest0 = [].
Proof.
  revert l1. induction front as [|f front IH]; intros l1 E F K.
  - destruct l1 as [|x l1]; simpl in E; inversion E; subst; [reflexivity|].
    now destruct l1.
  - inversion F; subst. destruct l1 as [|x l1]; simpl in E; inversion E; subst.
    + congruence.
    + eapply IH; eauto.
Qed.

Lemma lex_ends_with_eof p buf toks : lex p buf toks -> ends_with_eof toks.
Proof.
  induction 1 as [p buf Hend | p c buf toks Hc _ IH | p c buf toks Hc _ IH
                 | p c buf ds rest toks Hc Hs _ IH].
  - exists [], (mkToken TK_EOF 0 p). auto.
  - assumption.
  - destruct IH as (front & e & -> & K).
    exists (mkToken TK_RESERVED 0 p :: front), e. auto.
  - destruct IH as (front & e & -> & K).
    exists (num_token ds p :: front), e. auto.
Qed.

(** ** The outcomes of a run *)

Lemma main_body_number arg t rest n :
  kind t = TK_NUM ->
  (v <- expect_number ;;
   printf (asm_mov v) ;;
   main_loop n ;;
   printf asm_ret ;;
   ret 0) (mkState arg (t :: rest) prologue []) =
  match main_loop n (mkState arg rest (prologue ++ asm_mov (val t)) []) with
  | Returned _ s =>
      Returned 0 (mkState (user_input s) (token s) (stdout s ++ asm_ret) (stderr s))
  | Exited st s => Exited st s
  | Undefined => Undefined
  | OutOfFuel => OutOfFuel
  end.
Proof.
  intros K. unfold bind at 1. rewrite expect_number_returns by assumption.
  unfold bind at 1, printf at 1. cbn [user_input token stdout stderr].
  unfold bind at 1.
  now destruct (main_loop n _).
Qed.

Lemma main_body_not_number arg t rest n :
  kind t <> TK_NUM ->
  (v <- expect_number ;;
   printf (asm_mov v) ;;
   main_loop n ;;
   printf asm_ret ;;
   ret 0) (mkState arg (t :: rest) prologue []) =
  Exited 1 (mkState arg (t :: rest) prologue
              (diagnostic arg (str t) msg_not_number)).
Proof.
  intros K. unfold bind at 1. now rewrite expect_number_fails.
Qed.

Lemma run_cases prog arg :
  (exists q, lex_error 0 arg q /\
     run [prog; arg] =
     Some (mkOutcome 1 [] (diagnostic arg q msg_cannot_tokenize))) \/
  (exists t rest, lex 0 arg (t :: rest) /\
     ((kind t <> TK_NUM /\
       run [prog; arg] =
       Some (mkOutcome 1 prologue (diagnostic arg (str t) msg_not_number))) \/
      (kind t = TK_NUM /\
       exists ops tail, operand_tokens arg rest ops tail /\
         ((exists e, tail = [e] /\ kind e = TK_EOF /\
             run [prog; arg] =
             Some (mkOutcome 0
                     (prologue ++ asm_mov (val t) ++ asm_ops ops ++ asm_ret) [])) \/
          (exists pos msg,
             (msg = msg_not_number \/ msg = msg_not_char "-") /\
             run [prog; arg] =
             Some (mkOutcome 1 (prologue ++ asm_mov (val t) ++ asm_ops ops)
                     (diagnostic arg pos msg))))))).
Proof.
  unfold run. rewrite main_unfold.
  destruct (lex_total arg 0%nat) as [[toks Hlex] | [q Hlex]].
  2:{ left. exists q. split; [assumption|].
      now rewrite (tokenize_lex_error _ _ Hlex). }
  right. rewrite (tokenize_lex _ _ Hlex).
  pose proof (lex_ends_with_eof _ _ _ Hlex) as Hend.
  destruct toks as [|t rest]; [now apply ends_with_eof_nonempty in Hend|].
  exists t, rest. split; [assumption|].
  destruct (TokenKind_eqb (kind t) TK_NUM) eqn:K.
  - right.
    assert (K' : kind t = TK_NUM) by (destruct (kind t); simpl in K; congruence).
    split; [assumption|].
    assert (Hrest : ends_with_eof rest).
    { apply (ends_with_eof_tail t); [assumption | congruence]. }
    destruct (main_loop_cases (length (t :: rest)) arg rest
                (prologue ++ asm_mov (val t)) [] Hrest ltac:(simpl; lia))
      as (ops & tail & Hops & Hres).
    exists ops, tail. split; [assumption|].
    rewrite main_body_number by assumption.
    destruct Hres as [(e & rest0 & -> & Ke & ->) | (cur & pos & msg & Hmsg & ->)].
    + left. exists e.
      destruct (lex_invariants _ _ _ Hlex [] eq_refl (Forall_nil _))
        as ((front & Efront & Ffront) & _).
      destruct (operand_tokens_app _ _ _ _ Hops) as (front' & -> & _ & _).
      assert (rest0 = []) as ->.
      { eapply eof_is_last with (front := front) (l1 := t :: front') (e := e);
          [symmetry; exact Efront | assumption | assumption]. }
      repeat split; [assumption|].
      cbn [user_input token stdout stderr]. now rewrite <- !app_assoc.
    + right. exists pos, msg. split; [assumption|].
      cbn [app stdout stderr]. now rewrite <- ?app_assoc.
  - left.
    assert (K' : kind t <> TK_NUM) by (intros E; rewrite E in K; discriminate).
    split; [assumption|].
    now rewrite main_body_not_number.
Qed.

(** ** The first token that breaks the grammar *)

Lemma sign_of_some buf t o :
  sign_of buf t = Some o <-> kind t = TK_RESERVED /\ char_at buf (str t) = op_char o.
Proof.
  unfold sign_of. destruct (kind t); try (split; [discriminate | intros [K _]; discriminate K]).
  destruct (Ascii.eqb_spec (char_at buf (str t)) "+") as [E|E].
  - rewrite E. destruct o; simpl; split; try intros [_ H]; try discriminate; auto.
  - destruct (Ascii.eqb_spec (char_at buf (str t)) "-") as [E'|E'].
    + rewrite E'. destruct o; simpl; split; try intros [_ H]; try discriminate; auto.
    + split; [discriminate|]. intros [_ H]. destruct o; simpl in H; congruence.
Qed.

Lemma sign_of_none buf t :
  sign_of buf t = None ->
  not_reserved buf t "+" = true /\ not_reserved buf t "-" = true.
Proof.
  intros H. split.
  - destruct (not_reserved buf t "+") eqn:N; [reflexivity|].
    apply not_reserved_false in N.
    assert (S : sign_of buf t = Some OpAdd) by now apply sign_of_some.
    congruence.
  - destruct (not_reserved buf t "-") eqn:N; [reflexivity|].
    apply not_reserved_false in N.
    assert (S : sign_of buf t = Some OpSub) by now apply sign_of_some.
    congruence.
Qed.

Lemma kind_eqb_true k k' : TokenKind_eqb k k' = true <-> k = k'.
Proof. destruct k, k'; simpl; split; congruence. Qed.

Lemma kind_eqb_false k k' : TokenKind_eqb k k' = false <-> k <> k'.
Proof. destruct k, k'; simpl; split; congruence. Qed.

Lemma odd_of_even_false i : Nat.even i = false -> Nat.odd i = true.
Proof. intros H. unfold Nat.odd. now rewrite H. Qed.

Lemma even_succ_of_odd i : Nat.even i = false -> Nat.even (S i) = true.
Proof. intros H. rewrite Nat.even_succ. now apply odd_of_even_false. Qed.

(** The pairs that [matched_pairs] lists are those the token list starts
    with, and no further pair follows them. *)
Lemma matched_pairs_spec buf n :
  forall toks, (length toks <= n)%nat ->
  exists tail,
    operand_tokens buf toks (matched_pairs buf toks) tail /\
    matched_pairs buf tail = [].
Proof.
  induction n as [|n IH]; intros toks Hlen.
  { destruct toks; [|simpl in Hlen; lia]. exists []. split; [constructor | reflexivity]. }
  destruct toks as [|t1 [|t2 rest]];
    try (eexists; split; [constructor | reflexivity]).
  cbn [matched_pairs].
  destruct (sign_of buf t1) as [o|] eqn:So.
  - destruct (TokenKind_eqb (kind t2) TK_NUM) eqn:K2.
    + destruct (IH rest ltac:(simpl in Hlen; lia)) as (tail & Hops & Hn).
      apply sign_of_some in So as [K1 C]. apply kind_eqb_true in K2.
      exists tail. split; [now constructor | assumption].
    + exists (t1 :: t2 :: rest). split; [constructor|].
      cbn [matched_pairs]. now rewrite So, K2.
  - exists (t1 :: t2 :: rest). split; [constructor|].
    cbn [matched_pairs]. now rewrite So.
Qed.

(** The token that [first_break] finds stands at the place it names and
    does not fit the grammar there, and every token before it fits. *)
Lemma first_break_spec buf toks :
  forall i j tb, first_break buf i toks = Some (j, tb) ->
  (i <= j)%nat /\ nth_error toks (j - i) = Some tb /\
  fits_grammar buf j tb = false /\
  forall k t, (k < j - i)%nat -> nth_error toks k = Some t ->
    fits_grammar buf (i + k) t = true.
Proof.
  induction toks as [|t rest IH]; intros i j tb H; [discriminate|].
  cbn [first_break] in H. destruct (fits_grammar buf i t) eqn:F.
  - destruct (Nat.odd i && TokenKind_eqb (kind t) TK_EOF); [discriminate|].
    destruct (IH _ _ _ H) as (Hle & Hn & Hb & Hall).
    split; [lia|]. split.
    { replace (j - i)%nat with (S (j - S i)) by lia. exact Hn. }
    split; [assumption|].
    intros [|k] t' Hk Hk'.
    + simpl in Hk'. injection Hk' as <-. now rewrite Nat.add_0_r.
    + simpl in Hk'. replace (i + S k)%nat with (S i + k)%nat by lia.
      apply Hall; [lia | assumption].
  - injection H as <- <-. split; [lia|]. rewrite Nat.sub_diag.
    split; [reflexivity|]. split; [assumption|]. intros k t' Hk. lia.
Qed.

(** The loop of [main] matches pairs up to the first token that breaks
    the grammar, prints one instruction for each of them, and reports that
    token; without such a token it returns. *)
Lemma main_loop_break fuel :
  forall buf toks out err i,
  Nat.even i = false -> ends_with_eof toks -> (length toks <= fuel)%nat ->
  match first_break buf i toks with
  | Some (j, tb) =>
      (i + 2 * length (matched_pairs buf toks) <= j <=
       i + 2 * length (matched_pairs buf toks) + 1)%nat /\
      exists cur,
        main_loop fuel (mkState buf toks out err) =
        Exited 1 (mkState buf cur (out ++ asm_ops (matched_pairs buf toks))
                    (err ++ diagnostic buf (str tb) (break_message j)))
  | None =>
      exists cur,
        main_loop fuel (mkState buf toks out err) =
        Returned tt (mkState buf cur (out ++ asm_ops (matched_pairs buf toks)) err)
  end.
Proof.
  induction fuel as [|fuel IH]; intros buf toks out err i Hi Hend Hlen.
  { apply ends_with_eof_nonempty in Hend. destruct toks; simpl in *; [congruence | lia]. }
  destruct toks as [|t rest]; [now apply ends_with_eof_nonempty in Hend|].
  assert (Hnil : out ++ asm_ops [] = out) by (unfold asm_ops; simpl; apply app_nil_r).
  cbn [first_break]. unfold fits_grammar at 1. rewrite Hi, (odd_of_even_false _ Hi).
  destruct (TokenKind_eqb (kind t) TK_EOF) eqn:K.
  { apply kind_eqb_true in K. cbn [orb andb].
    assert (M : matched_pairs buf (t :: rest) = []).
    { destruct rest; simpl; [reflexivity|]. unfold sign_of. now rewrite K. }
    rewrite M, Hnil. exists (t :: rest). now apply main_loop_eof. }
  apply kind_eqb_false in K. cbn [orb andb].
  pose proof (ends_with_eof_tail _ _ Hend K) as Hrest.
  destruct (sign_of buf t) as [o|] eqn:So.
  - apply sign_of_some in So as So'. destruct So' as [Kt C].
    destruct rest as [|t2 rest']; [now apply ends_with_eof_nonempty in Hrest|].
    cbn [first_break matched_pairs]. unfold fits_grammar at 1.
    rewrite So, (even_succ_of_odd _ Hi), Nat.odd_succ, Hi. cbn [andb].
    destruct (TokenKind_eqb (kind t2) TK_NUM) eqn:K2.
    + apply kind_eqb_true in K2.
      assert (Hrest' : ends_with_eof rest').
      { apply (ends_with_eof_tail t2); [assumption | congruence]. }
      specialize (IH buf rest' (out ++ asm_op (o, val t2)) err (S (S i)) Hi Hrest'
                    ltac:(simpl in Hlen; lia)).
      rewrite (main_loop_pair _ _ _ _ _ o) by assumption.
      rewrite asm_ops_cons, app_assoc. cbn [length].
      destruct (first_break buf (S (S i)) rest') as [[j tb]|].
      * destruct IH as [B IH]. split; [lia | exact IH].
      * exact IH.
    + apply kind_eqb_false in K2.
      rewrite Hnil. split; [simpl; lia|]. exists (t2 :: rest').
      rewrite (main_loop_bad_operand _ _ _ _ _ o) by assumption.
      unfold break_message. now rewrite (even_succ_of_odd _ Hi).
  - assert (M : matched_pairs buf (t :: rest) = []).
    { destruct rest; simpl; [reflexivity | now rewrite So]. }
    rewrite M, Hnil. split; [simpl; lia|]. exists (t :: rest).
    destruct (sign_of_none _ _ So) as [N N'].
    rewrite main_loop_bad_sign by assumption.
    unfold break_message. now rewrite Hi.
Qed.

(** A run is decided by the first token that breaks the grammar. *)
Lemma run_break prog arg toks :
  lex 0 arg toks ->
  match first_break arg 0 toks with
  | Some (j, tb) =>
      run [prog; arg] =
      Some (mkOutcome 1 (prologue ++ emitted arg toks)
              (diagnostic arg (str tb) (break_message j))) /\
      (j = 0%nat \/
       (2 * length (matched_pairs arg (tl toks)) + 1 <= j <=
        2 * length (matched_pairs arg (tl toks)) + 2)%nat)
  | None =>
      run [prog; arg] =
      Some (mkOutcome 0 (prologue ++ emitted arg toks ++ asm_ret) [])
  end.
Proof.
  intros Hlex. unfold run. rewrite main_unfold, (tokenize_lex _ _ Hlex).
  pose proof (lex_ends_with_eof _ _ _ Hlex) as Hend.
  destruct toks as [|t rest]; [now apply ends_with_eof_nonempty in Hend|].
  cbn [first_break emitted tl]. unfold fits_grammar at 1.
  change (Nat.even 0) with true. change (Nat.odd 0) with false. cbn [andb]. cbn iota.
  destruct (TokenKind_eqb (kind t) TK_NUM) eqn:K.
  - apply kind_eqb_true in K.
    assert (Hrest : ends_with_eof rest).
    { apply (ends_with_eof_tail t); [assumption | congruence]. }
    rewrite main_body_number by assumption.
    pose proof (main_loop_break (length (t :: rest)) arg rest
                  (prologue ++ asm_mov (val t)) [] 1 eq_refl Hrest
                  ltac:(simpl; lia)) as B.
    destruct (first_break arg 1 rest) as [[j tb]|].
    + destruct B as [Bj [cur ->]]. cbn [stdout stderr app].
      rewrite <- app_assoc. split; [reflexivity|]. right. lia.
    + destruct B as [cur ->]. cbn [user_input token stdout stderr].
      now rewrite <- !app_assoc.
  - apply kind_eqb_false in K.
    rewrite main_body_not_number by assumption. rewrite app_nil_r.
    split; [reflexivity | now left].
Qed.

Lemma prefix_forall {A} (P : A -> Prop) front0 :
  forall (e : A) front more, front0 ++ [e] = front ++ more -> more <> [] ->
  Forall P front0 -> Forall P front.
Proof.
  induction front0 as [|f0 front0 IH]; intros e front more E Hm F.
  - destruct front as [|f front]; [constructor|].
    simpl in E. injection E as _ E. destruct front, more; simpl in E; congruence.
  - destruct front as [|f front]; [constructor|].
    simpl in E. injection E as <- E. inversion F; subst.
    constructor; [assumption | eapply IH; eauto].
Qed.

(** Two number tokens in a row: some token breaks the grammar, the second
    of them when none does before it. *)
Lemma first_break_two_numbers buf t1 t2 back front :
  kind t1 = TK_NUM -> kind t2 = TK_NUM ->
  Forall (fun t => kind t <> TK_EOF) front ->
  forall i, exists j tb,
    first_break buf i (front ++ t1 :: t2 :: back) = Some (j, tb) /\
    (j <= i + length front + 1)%nat.
Proof.
  intros K1 K2. induction 1 as [|f front Kf _ IH]; intros i.
  - cbn [app first_break]. unfold fits_grammar at 1. unfold sign_of. rewrite K1.
    destruct (Nat.even i) eqn:E.
    + assert (O : Nat.odd i = false) by (unfold Nat.odd; now rewrite E).
      rewrite O. cbn [TokenKind_eqb andb first_break].
      unfold fits_grammar, sign_of. rewrite Nat.even_succ, O, K2.
      cbn [TokenKind_eqb orb]. exists (S i), t2. split; [reflexivity | simpl; lia].
    + cbn [TokenKind_eqb orb]. exists i, t1. split; [reflexivity | lia].
  - cbn [app first_break]. destruct (fits_grammar buf i f).
    + apply kind_eqb_false in Kf. rewrite Kf, andb_false_r.
      destruct (IH (S i)) as (j & tb & -> & Hj).
      exists j, tb. split; [reflexivity | simpl; lia].
    + exists i, f. split; [reflexivity | lia].
Qed.

(** Two rejected inputs, traced. In "1 + 2 - 3 +" two pairs are matched
    and the break is the end marker, at place 6, where a number is
    missing. In "1 + + 2 3" no pair is matched and the break is the second
    sign, at place 2 and offset 4, well before the two numbers. *)
Example first_break_trailing_sign :
  tokenize (mkState (text "1 + 2 - 3 +") [] [] []) =
    Returned [mkToken TK_NUM 1 0; mkToken TK_RESERVED 0 2; mkToken TK_NUM 2 4;
              mkToken TK_RESERVED 0 6; mkToken TK_NUM 3 8;
              mkToken TK_RESERVED 0 10; mkToken TK_EOF 0 11]
             (mkState (text "1 + 2 - 3 +") [] [] []) /\
  matched_pairs (text "1 + 2 - 3 +")
    [mkToken TK_RESERVED 0 2; mkToken TK_NUM 2 4; mkToken TK_RESERVED 0 6;
     mkToken TK_NUM 3 8; mkToken TK_RESERVED 0 10; mkToken TK_EOF 0 11] =
    [(OpAdd, 2); (OpSub, 3)] /\
  first_break (text "1 + 2 - 3 +") 0
    [mkToken TK_NUM 1 0; mkToken TK_RESERVED 0 2; mkToken TK_NUM 2 4;
     mkToken TK_RESERVED 0 6; mkToken TK_NUM 3 8;
     mkToken TK_RESERVED 0 10; mkToken TK_EOF 0 11] =
    Some (6%nat, mkToken TK_EOF 0 11) /\
  compile "1 + 2 - 3 +" =
    Some (mkOutcome 1 (prologue ++ asm_mov 1 ++ asm_add 2 ++ asm_sub 3)
            (diagnostic (text "1 + 2 - 3 +") 11 msg_not_number)).
Proof. repeat split; vm_compute; reflexivity. Qed.

Example first_break_double_sign :
  tokenize (mkState (text "1 + + 2 3") [] [] []) =
    Returned [mkToken TK_NUM 1 0; mkToken TK_RESERVED 0 2;
              mkToken TK_RESERVED 0 4; mkToken TK_NUM 2 6; mkToken TK_NUM 3 8;
              mkToken TK_EOF 0 9]
             (mkState (text "1 + + 2 3") [] [] []) /\
  first_break (text "1 + + 2 3") 0
    [mkToken TK_NUM 1 0; mkToken TK_RESERVED 0 2;
     mkToken TK_RESERVED 0 4; mkToken TK_NUM 2 6; mkToken TK_NUM 3 8;
     mkToken TK_EOF 0 9] =
    Some (2%nat, mkToken TK_RESERVED 0 4) /\
  compile "1 + + 2 3" =
    Some (mkOutcome 1 (prologue ++ asm_mov 1)
            (diagnostic (text "1 + + 2 3") 4 msg_not_number)).
Proof. repeat split; vm_compute; reflexivity. Qed.

(** C2, as the code has it. When the lexer fails, nothing is written to
    standard output. When the lexer succeeds and the run fails, the
    prologue has been written. If the first token is not a number nothing
    follows it, and the diagnostic is that of [expect_number] at that
    token. Otherwise the load of the first number follows, and then one
    instruction for each pair of a sign and a number that the tokens after
    the first go on with, all of these pairs and nothing else; the
    diagnostic is at the first token that breaks the grammar, which is the
    first or the second of the tokens after these pairs. *)
Theorem malformed_input_output (prog arg : list ascii) (o : Outcome) :
  run [prog; arg] = Some o -> status o <> 0 ->
  match tokenize (mkState arg [] [] []) with
  | Returned toks _ =>
      exists t rest, toks = t :: rest /\
        ((kind t <> TK_NUM /\ output o = prologue /\
          errors o = diagnostic arg (str t) msg_not_number) \/
         (kind t = TK_NUM /\
          output o =
            prologue ++ asm_mov (val t) ++ asm_ops (matched_pairs arg rest) /\
          exists tail i tb,
            operand_tokens arg rest (matched_pairs arg rest) tail /\
            matched_pairs arg tail = [] /\
            first_break arg 0 toks = Some (i, tb) /\
            nth_error toks i = Some tb /\
            (2 * length (matched_pairs arg rest) + 1 <= i <=
             2 * length (matched_pairs arg rest) + 2)%nat /\
            errors o = diagnostic arg (str tb) (break_message i)))
  | _ => output o = []
  end.
Proof.
  intros Hrun Hst.
  destruct (run_cases prog arg) as [(q & Hlex & R) | (t & rest & Hlex & _)].
  - rewrite (tokenize_lex_error _ _ Hlex).
    rewrite R in Hrun. now inversion Hrun.
  - rewrite (tokenize_lex _ _ Hlex). exists t, rest. split; [reflexivity|].
    pose proof (run_break prog arg _ Hlex) as B.
    destruct (first_break arg 0 (t :: rest)) as [[i tb]|] eqn:Fb.
    2:{ rewrite B in Hrun. injection Hrun as <-. now elim Hst. }
    destruct B as [R Hi]. rewrite R in Hrun. injection Hrun as <-.
    cbn [output errors tl] in *. unfold emitted.
    pose proof Fb as Fb1. cbn [first_break] in Fb1. unfold fits_grammar at 1 in Fb1.
    change (Nat.even 0) with true in Fb1. change (Nat.odd 0) with false in Fb1.
    cbn [andb] in Fb1. cbn iota in Fb1.
    destruct (TokenKind_eqb (kind t) TK_NUM) eqn:K.
    + right. apply kind_eqb_true in K. split; [assumption|].
      split; [reflexivity|].
      destruct (matched_pairs_spec arg (length rest) rest (le_n _))
        as (tail & Hops & Hnone).
      destruct (first_break_spec _ _ _ _ _ Fb) as (_ & Hn & _).
      rewrite Nat.sub_0_r in Hn.
      destruct (first_break_spec _ _ _ _ _ Fb1) as (H1 & _).
      exists tail, i, tb.
      split; [assumption|]. split; [assumption|]. split; [reflexivity|].
      split; [assumption|]. split; [|reflexivity].
      destruct Hi as [->|Hi]; lia.
    + left. apply kind_eqb_false in K. injection Fb1 as <- <-.
      split; [assumption|]. split; reflexivity.
Qed.

(** C2 as stated fails: a grammar error on the very first token leaves the
    prologue on standard output, and a later one leaves instructions too. *)
Lemma malformed_input_has_output :
  compile "+" =
    Some (mkOutcome 1 prologue (diagnostic (text "+") 0 msg_not_number)) /\
  prologue <> [] /\
  compile "1 + +" =
    Some (mkOutcome 1 (prologue ++ asm_mov 1)
            (diagnostic (text "1 + +") 4 msg_not_number)).
Proof.
  split; [vm_compute; reflexivity|].
  split; [discriminate|].
  vm_compute; reflexivity.
Qed.

(** C3, as the code has it. When the run succeeds, the tokens are a number,
    then pairs of a sign and a number, then the end-of-input token, and
    standard output is the two directives, the label, the load of the
    first number, one add or subtract instruction for each pair, in the
    order of the input, and the return instruction. Two tokens are
    consumed for each of these instructions. For the input "42" the
    output is the prologue, one load and one return, and its run yields
    42. *)
Theorem success_output (prog arg : list ascii) (o : Outcome) :
  run [prog; arg] = Some o -> status o = 0 ->
  (exists t rest ops e,
     tokenize (mkState arg [] [] []) =
       Returned (t :: rest) (mkState arg [] [] []) /\
     kind t = TK_NUM /\ operand_tokens arg rest ops [e] /\ kind e = TK_EOF /\
     length rest = (2 * length ops + 1)%nat /\
     output o = asm_syntax ++ asm_globl ++ asm_label ++
                asm_mov (val t) ++ asm_ops ops ++ asm_ret /\
     errors o = []) /\
  compile "42" =
    Some (mkOutcome 0 (asm_syntax ++ asm_globl ++ asm_label ++
                       asm_mov 42 ++ asm_ret) []) /\
  instruction_lines (asm_syntax ++ asm_globl ++ asm_label ++
                     asm_mov 42 ++ asm_ret) =
    [text "  mov rax, 42"; text "  ret"] /\
  (forall rax0, execute rax0 (asm_syntax ++ asm_globl ++ asm_label ++
                              asm_mov 42 ++ asm_ret) = Some 42).
Proof.
  intros Hrun Hst. split.
  - destruct (run_cases prog arg) as [(q & Hlex & R) | (t & rest & Hlex & H)].
    { rewrite R in Hrun. inversion Hrun; subst. discriminate. }
    destruct H as [(K & R) | (K & ops & tail & Hops & H)].
    { rewrite R in Hrun. inversion Hrun; subst. discriminate. }
    destruct H as [(e & -> & Ke & R) | (pos & msg & _ & R)].
    2:{ rewrite R in Hrun. inversion Hrun; subst. discriminate. }
    exists t, rest, ops, e. rewrite (tokenize_lex _ _ Hlex).
    repeat split; try assumption.
    + rewrite (operand_tokens_length _ _ _ _ Hops). simpl. lia.
    + rewrite R in Hrun. inversion Hrun; subst. simpl. unfold prologue.
      now rewrite <- !app_assoc.
    + rewrite R in Hrun. now inversion Hrun.
  - split; [vm_compute; reflexivity|].
    split; [vm_compute; reflexivity|].
    intros rax0. vm_compute. reflexivity.
Qed.

(** C3 as stated fails: for "1 + 2 - 3" four tokens are consumed after the
    first number, and two add or subtract lines are printed, three lines
    with the return. *)
Lemma instruction_lines_per_token_fails :
  exists toks s',
    tokenize (mkState (text "1 + 2 - 3") [] [] []) =
      Returned toks (mkState (text "1 + 2 - 3") [] [] []) /\
    main [text "9cc"; text "1 + 2 - 3"] initial_state = Returned 0 s' /\
    length toks = 6%nat /\ map kind (token s') = [TK_EOF] /\
    (length toks - length (token s') - 1 = 4)%nat /\
    instruction_lines (stdout s') =
      [text "  mov rax, 1"; text "  add rax, 2"; text "  sub rax, 3"; text "  ret"] /\
    (length (instruction_lines (stdout s')) - 1 <> 4)%nat.
Proof.
  eexists. eexists.
  split; [vm_compute; reflexivity|].
  split; [vm_compute; reflexivity|].
  repeat split; try (vm_compute; reflexivity).
  vm_compute. discriminate.
Qed.

(** ** Printing and reading numbers *)

Lemma string_of_uint_no_newline d :
  Forall (fun c => c <> newline) (text (NilEmpty.string_of_uint d)).
Proof.
  induction d; simpl; constructor; try assumption; discriminate.
Qed.

Lemma print_int_no_newline v : Forall (fun c => c <> newline) (print_int v).
Proof.
  unfold print_int, NilZero.string_of_int, NilZero.string_of_uint.
  assert (H0 : Forall (fun c => c <> newline) (text "0")).
  { repeat constructor. discriminate. }
  destruct (Z.to_int v) as [d|d].
  - destruct d; try exact H0; apply string_of_uint_no_newline.
  - simpl. constructor; [discriminate|].
    destruct d; try exact H0; apply string_of_uint_no_newline.
Qed.

Lemma parse_imm_print_int v : parse_imm (print_int v) = Some v.
Proof.
  unfold parse_imm, print_int, text.
  rewrite string_of_list_ascii_of_string.
  rewrite NilZero.isi.
  - simpl. now rewrite DecimalZ.of_to.
  - destruct v; simpl; try discriminate.
    intros E. inversion E as [E']. now apply DecimalPos.Unsigned.to_uint_nonnil in E'.
  - destruct v; simpl; try discriminate.
    intros E. inversion E as [E']. now apply DecimalPos.Unsigned.to_uint_nonnil in E'.
Qed.

(** ** Running the listing *)

Lemma split_lines_line l rest :
  Forall (fun c => c <> newline) l ->
  split_lines (line l ++ rest) = l :: split_lines rest.
Proof.
  unfold line. induction 1 as [|c l Hc _ IH]; simpl.
  - reflexivity.
  - destruct (Ascii.eqb_spec c newline) as [E|_]; [contradiction|].
    cbn [app] in IH. unfold newline in *. now rewrite IH.
Qed.

Lemma strip_prefix_app pre s : strip_prefix pre (pre ++ s) = Some s.
Proof.
  induction pre as [|c pre IH]; simpl; [reflexivity|].
  now rewrite Ascii.eqb_refl.
Qed.

Lemma exec_line_blank l rax :
  (exists l', l = space :: l') -> exec_line l rax = exec_instruction l rax.
Proof. intros [l' ->]. reflexivity. Qed.

Lemma exec_line_mov v rax :
  exec_line (text "  mov rax, " ++ print_int v) rax = Some (Running (wrap64 v)).
Proof.
  rewrite exec_line_blank by (eexists; reflexivity).
  unfold exec_instruction. rewrite strip_prefix_app, parse_imm_print_int.
  reflexivity.
Qed.

Lemma exec_line_add v rax :
  fits_imm32 v = true ->
  exec_line (text "  add rax, " ++ print_int v) rax =
  Some (Running (wrap64 (rax + v))).
Proof.
  intros F. rewrite exec_line_blank by (eexists; reflexivity).
  unfold exec_instruction.
  replace (strip_prefix (text "  mov rax, ") (text "  add rax, " ++ print_int v))
    with (@None (list ascii)) by reflexivity.
  now rewrite strip_prefix_app, parse_imm_print_int, F.
Qed.

Lemma exec_line_sub v rax :
  fits_imm32 v = true ->
  exec_line (text "  sub rax, " ++ print_int v) rax =
  Some (Running (wrap64 (rax - v))).
Proof.
  intros F. rewrite exec_line_blank by (eexists; reflexivity).
  unfold exec_instruction.
  replace (strip_prefix (text "  mov rax, ") (text "  sub rax, " ++ print_int v))
    with (@None (list ascii)) by reflexivity.
  replace (strip_prefix (text "  add rax, ") (text "  sub rax, " ++ print_int v))
    with (@None (list ascii)) by reflexivity.
  now rewrite strip_prefix_app, parse_imm_print_int, F.
Qed.

Lemma text_line_no_newline s v :
  Forall (fun c => c <> newline) (text s) ->
  Forall (fun c => c <> newline) (text s ++ print_int v).
Proof. intros H. apply Forall_app. split; [assumption | apply print_int_no_newline]. Qed.

Lemma execute_ops ops :
  Forall (fun x => fits_imm32 (snd x) = true) ops ->
  forall rax,
  exec_lines (split_lines (asm_ops ops ++ asm_ret)) rax =
  Some (signed64 (run_ops rax ops)).
Proof.
  induction 1 as [|[o v] ops Hv _ IH]; intros rax.
  - reflexivity.
  - rewrite asm_ops_cons, <- app_assoc. simpl in Hv.
    unfold asm_op. destruct o; cbn [fst snd].
    + unfold asm_add. rewrite split_lines_line.
      2:{ apply text_line_no_newline. repeat constructor; discriminate. }
      cbn [exec_lines]. rewrite exec_line_add by assumption. apply IH.
    + unfold asm_sub. rewrite split_lines_line.
      2:{ apply text_line_no_newline. repeat constructor; discriminate. }
      cbn [exec_lines]. rewrite exec_line_sub by assumption. apply IH.
Qed.

Lemma execute_listing rax0 v0 ops :
  Forall (fun x => fits_imm32 (snd x) = true) ops ->
  execute rax0 (prologue ++ asm_mov v0 ++ asm_ops ops ++ asm_ret) =
  Some (signed64 (run_ops (wrap64 v0) ops)).
Proof.
  intros H. unfold execute, prologue, asm_syntax, asm_globl, asm_label.
  rewrite <- !app_assoc.
  rewrite !split_lines_line by (repeat constructor; discriminate).
  unfold asm_mov. rewrite split_lines_line.
  2:{ apply text_line_no_newline. repeat constructor; discriminate. }
  cbn [exec_lines].
  replace (exec_line (text ".intel_syntax noprefix") rax0)
    with (Some (Running rax0)) by reflexivity.
  replace (exec_line (text ".globl main") rax0)
    with (Some (Running rax0)) by reflexivity.
  replace (exec_line (text "main:") rax0)
    with (Some (Running rax0)) by reflexivity.
  rewrite exec_line_mov. now apply execute_ops.
Qed.

(** ** Arithmetic of the register *)

Lemma signed64_congr a b :
  a mod 2^64 = b mod 2^64 -> signed64 a = signed64 b.
Proof.
  unfold signed64. intros H.
  rewrite <- (Z.add_mod_idemp_l a), H, Z.add_mod_idemp_l by lia.
  reflexivity.
Qed.

Lemma apply_op_congr a b x :
  a mod 2^64 = b mod 2^64 ->
  wrap64 (apply_op a x) mod 2^64 = apply_op b x mod 2^64.
Proof.
  unfold wrap64, apply_op. intros H. rewrite Z.mod_mod by lia.
  destruct (fst x).
  - now rewrite <- (Z.add_mod_idemp_l a), H, Z.add_mod_idemp_l by lia.
  - now rewrite <- (Zminus_mod_idemp_l a), H, Zminus_mod_idemp_l.
Qed.

Lemma run_ops_eval ops :
  forall a b, a mod 2^64 = b mod 2^64 ->
  signed64 (run_ops a ops) = signed64 (eval_ops b ops).
Proof.
  unfold run_ops, eval_ops.
  induction ops as [|x ops IH]; intros a b H; simpl.
  - now apply signed64_congr.
  - apply IH. now apply apply_op_congr.
Qed.

Lemma signed64_small v : - 2^63 <= v < 2^63 -> signed64 v = v.
Proof. unfold signed64. intros H. rewrite Z.mod_small; lia. Qed.

Lemma eval_ops_bound ops :
  Forall (fun x => Z.abs (snd x) <= INT_MAX) ops ->
  forall v0, Z.abs (eval_ops v0 ops) <= Z.abs v0 + Z.of_nat (length ops) * INT_MAX.
Proof.
  unfold eval_ops.
  induction 1 as [|x ops Hx _ IH]; intros v0.
  - simpl. lia.
  - cbn [fold_left length]. specialize (IH (apply_op v0 x)).
    assert (Z.abs (apply_op v0 x) <= Z.abs v0 + INT_MAX).
    { unfold apply_op. destruct (fst x); lia. }
    rewrite Nat2Z.inj_succ. unfold INT_MAX in *. lia.
Qed.

(** ** Lexing an expression *)

Lemma digits_spec ds : digits ds = true -> ds <> [] /\ forallb isdigit ds = true.
Proof. destruct ds; simpl; [discriminate|]. intros H. split; [discriminate | exact H]. Qed.

Lemma lex_number ds rest p toks :
  digits ds = true -> no_digit_head rest ->
  lex (p + length ds) rest toks ->
  lex p (ds ++ rest) (num_token ds p :: toks).
Proof.
  intros Hds Hrest Hlex. apply digits_spec in Hds as [Hne Hds].
  pose proof (span_digits_app _ _ Hds Hrest) as Hs.
  destruct ds as [|d ds]; [congruence|].
  simpl in Hds. apply andb_true_iff in Hds as [Hd _].
  rewrite <- app_comm_cons in *.
  eapply lex_digits; eauto.
Qed.

Lemma no_digit_head_blank ws rest :
  blank ws = true -> no_digit_head rest -> no_digit_head (ws ++ rest).
Proof.
  destruct ws as [|c ws]; simpl; [auto|].
  intros H _. apply andb_true_iff in H as [Hc _]. auto with ctype.
Qed.

Lemma op_char_is_sign o : is_sign (op_char o) = true.
Proof. now destruct o. Qed.

Lemma no_digit_head_operand x rest :
  blank (blank_before_sign x) = true -> no_digit_head (render_operand x ++ rest).
Proof.
  intros H. unfold render_operand. rewrite <- app_assoc.
  apply no_digit_head_blank; [assumption|]. simpl.
  apply is_sign_not_digit, op_char_is_sign.
Qed.

Lemma operand_shape_spec x :
  operand_shape x = true ->
  blank (blank_before_sign x) = true /\ blank (blank_before_literal x) = true /\
  digits (literal x) = true.
Proof.
  unfold operand_shape. rewrite !andb_true_iff. tauto.
Qed.

Lemma no_digit_head_operands xs rest :
  forallb operand_shape xs = true -> no_digit_head rest ->
  no_digit_head (render_operands xs ++ rest).
Proof.
  destruct xs as [|x xs]; simpl; [auto|].
  intros H _. apply andb_true_iff in H as [Hx _].
  apply operand_shape_spec in Hx as (H1 & _).
  unfold render_operands. simpl. rewrite <- app_assoc.
  now apply no_digit_head_operand.
Qed.

(** The operands of an expression become pairs of tokens, and the scan
    goes on with what follows them. *)
Lemma lex_operands xs :
  forall pre rest tail,
  forallb operand_shape xs = true -> no_digit_head rest ->
  lex (length (pre ++ render_operands xs)) rest tail ->
  exists toks,
    lex (length pre) (render_operands xs ++ rest) toks /\
    operand_tokens (pre ++ render_operands xs ++ rest) toks (ops_of xs) tail.
Proof.
  induction xs as [|x xs IH]; intros pre rest tail Hxs Hrest Htail.
  - exists tail. unfold render_operands in *. simpl in *.
    rewrite app_nil_r in Htail. split; [assumption | constructor].
  - simpl in Hxs. apply andb_true_iff in Hxs as [Hx Hxs].
    apply operand_shape_spec in Hx as (H1 & H2 & H3).
    unfold render_operands in *. cbn [map concat] in *.
    fold (render_operands xs) in *.
    destruct (IH (pre ++ render_operand x) rest tail Hxs Hrest) as (toks & Hlex & Hops).
    { now rewrite <- app_assoc. }
    set (p1 := (length pre + length (blank_before_sign x))%nat).
    set (p2 := (S p1 + length (blank_before_literal x))%nat).
    exists (mkToken TK_RESERVED 0 p1 :: num_token (literal x) p2 :: toks).
    split.
    + unfold render_operand. rewrite <- !app_assoc.
      apply lex_spaces; [assumption|]. simpl.
      apply lex_sign; [apply op_char_is_sign|].
      apply lex_spaces; [assumption|].
      apply lex_number; [assumption | now apply no_digit_head_operands |].
      replace (p2 + length (literal x))%nat
        with (length (pre ++ render_operand x)); [assumption|].
      unfold p2, p1, render_operand. rewrite !length_app. simpl. lia.
    + rewrite <- !app_assoc in Hops.
      replace (val (num_token (literal x) p2)) with (int_of_digits (literal x))
        in * by reflexivity.
      cbn [ops_of map].
      change (int_of_digits (literal x)) with (val (num_token (literal x) p2)).
      constructor; try reflexivity; [|rewrite <- !app_assoc; exact Hops].
      cbn [str]. unfold p1, render_operand.
      rewrite <- length_app, <- !app_assoc, (app_assoc pre).
      simpl. apply char_at_app.
Qed.

(** The tokens of an expression that is followed by [rest]. *)
Lemma lex_body e rest tail :
  blank (leading_blank e) = true -> digits (first_literal e) = true ->
  forallb operand_shape (operands e) = true -> no_digit_head rest ->
  lex (length (render_body e)) rest tail ->
  exists toks,
    lex 0 (render_body e ++ rest)
      (num_token (first_literal e) (length (leading_blank e)) :: toks) /\
    operand_tokens (render_body e ++ rest) toks (ops_of (operands e)) tail.
Proof.
  intros Hb Hd Hxs Hrest Htail. unfold render_body in *.
  destruct (lex_operands (operands e) (leading_blank e ++ first_literal e) rest tail
              Hxs Hrest) as (toks & Hlex & Hops).
  { now rewrite <- app_assoc. }
  exists toks. rewrite <- !app_assoc in *. split; [|assumption].
  apply lex_spaces; [assumption|]. simpl.
  apply lex_number; [assumption | now apply no_digit_head_operands |].
  now rewrite <- length_app.
Qed.

(** ** Compiling an expression *)

Lemma run_body prog e rest tail :
  blank (leading_blank e) = true -> digits (first_literal e) = true ->
  forallb operand_shape (operands e) = true -> no_digit_head rest ->
  lex (length (render_body e)) rest tail ->
  run [prog; render_body e ++ rest] =
  finish (main_loop (S (length (operands e) + length tail))
            (mkState (render_body e ++ rest) tail
               (prologue ++ asm_mov (int_of_digits (first_literal e)) ++
                asm_ops (ops_of (operands e))) [])).
Proof.
  intros Hb Hd Hxs Hrest Htail.
  destruct (lex_body e rest tail Hb Hd Hxs Hrest Htail) as (toks & Hlex & Hops).
  unfold run. rewrite main_unfold, (tokenize_lex _ _ Hlex).
  rewrite main_body_number by reflexivity.
  pose proof (operand_tokens_length _ _ _ _ Hops) as L.
  unfold ops_of in L. rewrite length_map in L.
  replace (length (num_token (first_literal e) (length (leading_blank e)) :: toks))
    with (length (ops_of (operands e)) + S (length (operands e) + length tail))%nat.
  2:{ unfold ops_of. rewrite length_map. simpl. lia. }
  rewrite (main_loop_steps _ _ _ _ Hops).
  replace (val (num_token (first_literal e) (length (leading_blank e))))
    with (int_of_digits (first_literal e)) by reflexivity.
  rewrite <- app_assoc. unfold finish.
  now destruct (main_loop _ _).
Qed.

Lemma no_digit_head_blank_only ws : blank ws = true -> no_digit_head ws.
Proof.
  intros H. rewrite <- (app_nil_r ws). now apply no_digit_head_blank.
Qed.

Lemma lex_blank_end ws p :
  blank ws = true -> lex p ws [mkToken TK_EOF 0 (p + length ws)].
Proof.
  intros H. rewrite <- (app_nil_r ws) at 1.
  apply lex_spaces; [assumption|]. now apply lex_eof.
Qed.

Lemma expr_shape_spec e :
  expr_shape e = true ->
  blank (leading_blank e) = true /\ digits (first_literal e) = true /\
  forallb operand_shape (operands e) = true /\ blank (trailing_blank e) = true.
Proof. unfold expr_shape. rewrite !andb_true_iff. tauto. Qed.

Lemma int_of_digits_fits ds : fits_imm32 (int_of_digits ds) = true.
Proof.
  unfold fits_imm32, int_of_digits.
  pose proof (to_int_range (Z.min (dec_value ds) LONG_MAX)) as H.
  unfold INT_MAX in H. apply andb_true_iff. split; [apply Z.leb_le | apply Z.ltb_lt]; lia.
Qed.

Lemma ops_of_fit xs : Forall (fun x => fits_imm32 (snd x) = true) (ops_of xs).
Proof.
  unfold ops_of. apply Forall_map, Forall_forall. intros x _. simpl.
  apply int_of_digits_fits.
Qed.

Lemma ops_of_in_range xs :
  forallb operand_shape xs = true ->
  forallb (fun x => dec_value (literal x) <=? INT_MAX) xs = true ->
  ops_of xs = map (fun x => (sign x, dec_value (literal x))) xs.
Proof.
  unfold ops_of. induction xs as [|x xs IH]; simpl; [reflexivity|].
  rewrite !andb_true_iff. intros [Hx Hxs] [Rx Rxs].
  apply operand_shape_spec in Hx as (_ & _ & Hd). apply digits_spec in Hd as [_ Hd].
  apply Z.leb_le in Rx. unfold int_of_digits at 1.
  rewrite strtol_in_range by assumption. f_equal. now apply IH.
Qed.

Lemma eval_in_range e :
  expr_shape e = true -> in_int_range e = true ->
  (Z.of_nat (length (operands e)) < 2^32) ->
  - 2^63 <= eval e < 2^63.
Proof.
  intros Hs Hr Hn. apply expr_shape_spec in Hs as (_ & Hd & Hxs & _).
  apply digits_spec in Hd as [_ Hd].
  unfold in_int_range in Hr. apply andb_true_iff in Hr as [R0 Rxs].
  apply Z.leb_le in R0. pose proof (dec_value_nonneg _ Hd) as P0.
  unfold eval.
  pose proof (eval_ops_bound
    (map (fun x => (sign x, dec_value (literal x))) (operands e))) as B.
  rewrite length_map in B.
  assert (F : Forall (fun x : Op * Z => Z.abs (snd x) <= INT_MAX)
                (map (fun x => (sign x, dec_value (literal x))) (operands e))).
  { apply Forall_map, Forall_forall. intros x Hx. simpl.
    rewrite forallb_forall in Hxs, Rxs.
    specialize (Hxs x Hx). specialize (Rxs x Hx).
    apply operand_shape_spec in Hxs as (_ & _ & Hdx).
    apply digits_spec in Hdx as [_ Hdx].
    pose proof (dec_value_nonneg _ Hdx). apply Z.leb_le in Rxs. lia. }
  specialize (B F (dec_value (first_literal e))).
  unfold INT_MAX in *. lia.
Qed.

(** C1. For an expression typed with any whitespace around its literals
    and signs, every literal at most [INT_MAX], the process ends with
    status 0 and nothing on the error stream, and the listing it printed,
    run from any initial register, leaves in [rax] the value of the
    expression, reduced to the 64 bits of the register; this is the value
    itself for every input of fewer than 2^32 operands. The input
    "1 + 2 - 3" yields 0 and the input "5 - 20" yields -15. *)
Theorem compile_correct :
  (forall (prog : list ascii) (e : Expr) (rax0 : Z),
     expr_shape e = true -> in_int_range e = true ->
     exists listing,
       run [prog; render e] = Some (mkOutcome 0 listing []) /\
       execute rax0 listing = Some (signed64 (eval e)) /\
       (Z.of_nat (length (operands e)) < 2^32 ->
        execute rax0 listing = Some (eval e))) /\
  (exists listing,
     compile "1 + 2 - 3" = Some (mkOutcome 0 listing []) /\
     forall rax0, execute rax0 listing = Some 0) /\
  (exists listing,
     compile "5 - 20" = Some (mkOutcome 0 listing []) /\
     forall rax0, execute rax0 listing = Some (-15)).
Proof.
  split.
  - intros prog e rax0 Hs Hr.
    pose proof (expr_shape_spec _ Hs) as (Hb & Hd & Hxs & Ht).
    exists (prologue ++ asm_mov (int_of_digits (first_literal e)) ++
            asm_ops (ops_of (operands e)) ++ asm_ret).
    assert (Hexec : execute rax0
              (prologue ++ asm_mov (int_of_digits (first_literal e)) ++
               asm_ops (ops_of (operands e)) ++ asm_ret) =
            Some (signed64 (eval e))).
    { rewrite execute_listing by apply ops_of_fit.
      f_equal. unfold eval.
      unfold in_int_range in Hr. apply andb_true_iff in Hr as [R0 Rxs].
      apply Z.leb_le in R0. pose proof (digits_spec _ Hd) as [_ Hd'].
      rewrite <- (ops_of_in_range _ Hxs Rxs).
      rewrite <- (strtol_in_range _ Hd' R0). fold (int_of_digits (first_literal e)).
      apply run_ops_eval. unfold wrap64. apply Z.mod_mod. lia. }
    split; [|split].
    + unfold render.
      rewrite (run_body prog e (trailing_blank e)
                 [mkToken TK_EOF 0 (length (render_body e) + length (trailing_blank e))]);
        try assumption.
      * rewrite main_loop_eof by reflexivity. unfold finish.
        cbn [stdout stderr]. now rewrite <- !app_assoc.
      * now apply no_digit_head_blank_only.
      * now apply lex_blank_end.
    + exact Hexec.
    + intros Hn. rewrite Hexec. f_equal. apply signed64_small.
      now apply eval_in_range.
  - split.
    + eexists. split; [vm_compute; reflexivity|]. intros rax0. vm_compute. reflexivity.
    + eexists. split; [vm_compute; reflexivity|]. intros rax0. vm_compute. reflexivity.
Qed.

(** ** Two numbers side by side *)

Lemma lex_error_unlexable p buf q :
  lex_error p buf q -> exists c, In c buf /\ lexable c = false.
Proof.
  induction 1 as [p c buf H0 H1 H2 H3 | p c buf q Hc _ IH | p c buf q Hc _ IH
                 | p c buf ds rest q Hc Hs _ IH].
  - exists c. split; [now left|]. unfold lexable. now rewrite H0, H1, H2, H3.
  - destruct IH as (c' & Hin & Hl). exists c'. split; [now right | assumption].
  - destruct IH as (c' & Hin & Hl). exists c'. split; [now right | assumption].
  - destruct IH as (c' & Hin & Hl). exists c'. split; [|assumption].
    apply span_digits_spec in Hs as (-> & _). apply in_or_app. now right.
Qed.

Lemma lex_lexable p buf :
  forallb lexable buf = true -> exists toks, lex p buf toks.
Proof.
  intros H. destruct (lex_total buf p) as [Hlex | [q Herr]]; [assumption|].
  apply lex_error_unlexable in Herr as (c & Hin & Hl).
  rewrite forallb_forall in H. rewrite (H c Hin) in Hl. discriminate.
Qed.

Lemma lex_at_digit p d buf toks :
  isdigit d = true -> lex p (d :: buf) toks ->
  exists t back, toks = t :: back /\ kind t = TK_NUM /\ str t = p.
Proof.
  intros Hd Hlex. inversion Hlex; subst.
  - simpl in *. rewrite (isdigit_not_nul _ Hd) in *. discriminate.
  - rewrite (isdigit_not_space _ Hd) in *. discriminate.
  - rewrite (isdigit_not_sign _ Hd) in *. discriminate.
  - eexists. eexists. split; [reflexivity|]. split; reflexivity.
Qed.

Lemma operand_tokens_last_number buf toks ops tail :
  operand_tokens buf toks ops tail ->
  forall t0, kind t0 = TK_NUM ->
  exists front t1, t0 :: toks = front ++ t1 :: tail /\ kind t1 = TK_NUM.
Proof.
  induction 1 as [tail | t1 t2 toks o ops tail K1 C K2 _ IH]; intros t0 K0.
  - exists [], t0. auto.
  - destruct (IH t2 K2) as (front & t & E & K).
    exists (t0 :: t1 :: front), t. rewrite E. auto.
Qed.

Lemma in_order_app buf front toks :
  in_order buf (front ++ toks) -> in_order buf toks.
Proof.
  induction front as [|t front IH]; [auto|].
  simpl. destruct (front ++ toks) eqn:E.
  - destruct front; simpl in E; [subst; simpl; auto | discriminate].
  - intros (_ & _ & H). auto.
Qed.

Lemma token_char_lexable c : token_char c = true -> lexable c = true.
Proof.
  unfold token_char, lexable. intros H.
  destruct (is_nul c); [reflexivity|]. exact H.
Qed.

Lemma token_char_not_nul c : token_char c = true -> is_nul c = false.
Proof. each_ascii c. Qed.

Lemma token_chars_lexable l : forallb token_char l = true -> forallb lexable l = true.
Proof.
  rewrite !forallb_forall. intros H c Hc. apply token_char_lexable. auto.
Qed.

Lemma token_chars_no_nul l : forallb token_char l = true -> no_nul l.
Proof.
  rewrite forallb_forall. intros H. apply Forall_forall. intros c Hc.
  apply token_char_not_nul. auto.
Qed.

(** After whitespace that a digit follows, the next token is a number at
    the offset of that digit. *)
Lemma lex_spaces_digit ws :
  forall p d post toks,
  blank ws = true -> isdigit d = true ->
  lex p (ws ++ d :: post) toks ->
  exists t back, toks = t :: back /\ kind t = TK_NUM /\ str t = (p + length ws)%nat.
Proof.
  induction ws as [|c ws IH]; intros p d post toks Hws Hd Hlex.
  - simpl in *. rewrite Nat.add_0_r. eapply lex_at_digit; eauto.
  - simpl in Hws. apply andb_true_iff in Hws as [Hc Hws].
    simpl in Hlex. inversion Hlex; subst.
    + simpl in *. rewrite (isspace_not_nul _ Hc) in *. discriminate.
    + destruct (IH _ _ _ _ Hws Hd H4) as (t & back & -> & K & P).
      exists t, back. repeat split; [assumption|]. simpl. lia.
    + rewrite (isspace_not_sign _ Hc) in *. discriminate.
    + rewrite (isspace_not_digit _ Hc) in *. discriminate.
Qed.

(** A run of digits that starts before a digit [d1] which whitespace
    follows ends with [d1] or before it. *)
Lemma span_digits_before pre :
  forall d1 w more ds rest,
  isdigit d1 = true -> isdigit w = false ->
  span_digits (pre ++ d1 :: w :: more) = (ds, rest) ->
  (ds = pre ++ [d1] /\ rest = w :: more) \/
  (exists pre2, pre = ds ++ pre2 /\ rest = pre2 ++ d1 :: w :: more).
Proof.
  induction pre as [|c pre IH]; intros d1 w more ds rest Hd Hw Hs.
  - simpl in Hs. rewrite Hd, Hw in Hs. inversion Hs; subst. now left.
  - simpl in Hs. destruct (isdigit c) eqn:Hc.
    + destruct (span_digits (pre ++ d1 :: w :: more)) as [ds' rest'] eqn:Hs'.
      inversion Hs; subst.
      destruct (IH _ _ _ _ _ Hd Hw Hs') as [[-> ->] | (pre2 & -> & ->)].
      * now left.
      * right. exists pre2. auto.
    + inversion Hs; subst. right. exists (c :: pre). auto.
Qed.

(** Two digit runs with whitespace between them become two number tokens,
    one after the other, whatever stands before the first. *)
Lemma lex_two_numbers p buf toks :
  lex p buf toks ->
  forall pre d1 ws d2 post,
  buf = pre ++ d1 :: ws ++ d2 :: post ->
  no_nul pre -> isdigit d1 = true -> ws <> [] -> blank ws = true ->
  isdigit d2 = true ->
  exists front t1 t2 back,
    toks = front ++ t1 :: t2 :: back /\ kind t1 = TK_NUM /\ kind t2 = TK_NUM /\
    str t2 = (p + length (pre ++ d1 :: ws))%nat.
Proof.
  induction 1 as [p buf Hend | p c buf toks Hc Hlex IH | p c buf toks Hc Hlex IH
                 | p c buf ds rest toks Hc Hs Hlex IH];
    intros pre d1 ws d2 post E Hpre Hd1 Hne Hws Hd2.
  - subst buf. destruct pre as [|c pre]; simpl in Hend.
    + rewrite (isdigit_not_nul _ Hd1) in Hend. discriminate.
    + inversion Hpre; subst. congruence.
  - destruct pre as [|c' pre]; simpl in E; inversion E; subst.
    + rewrite (isdigit_not_space _ Hd1) in Hc. discriminate.
    + inversion Hpre; subst.
      destruct (IH pre d1 ws d2 post eq_refl) as (front & t1 & t2 & back & -> & K1 & K2 & P);
        try assumption.
      exists front, t1, t2, back. repeat split; try assumption.
      rewrite P. simpl. lia.
  - destruct pre as [|c' pre]; simpl in E; inversion E; subst.
    + rewrite (isdigit_not_sign _ Hd1) in Hc. discriminate.
    + inversion Hpre; subst.
      destruct (IH pre d1 ws d2 post eq_refl) as (front & t1 & t2 & back & -> & K1 & K2 & P);
        try assumption.
      exists (mkToken TK_RESERVED 0 p :: front), t1, t2, back.
      repeat split; try assumption. rewrite P. simpl. lia.
  - destruct ws as [|w ws]; [congruence|].
    simpl in Hws. apply andb_true_iff in Hws as [Hw Hws].
    rewrite E in Hs. cbn [app] in Hs.
    destruct (span_digits_before _ _ _ _ _ _ Hd1 (isspace_not_digit _ Hw) Hs)
      as [[-> ->] | (pre2 & -> & ->)].
    + destruct (lex_spaces_digit (w :: ws) (p + length (pre ++ [d1]))%nat d2 post toks)
        as (t2 & back & -> & K2 & P);
        [simpl; now rewrite Hw | assumption | exact Hlex |].
      exists [], (num_token (pre ++ [d1]) p), t2, back.
      repeat split; try assumption.
      rewrite P, !length_app. simpl. lia.
    + apply Forall_app in Hpre as [_ Hpre2].
      destruct (IH pre2 d1 (w :: ws) d2 post eq_refl) as
        (front & t1 & t2 & back & -> & K1 & K2 & P); try assumption.
      * simpl. now rewrite Hw.
      * exists (num_token ds p :: front), t1, t2, back.
        repeat split; try assumption.
        rewrite P, !length_app. simpl. lia.
Qed.

(** The tokens of an accepted input never hold two numbers side by side. *)
Lemma operand_tokens_alternate buf rest ops e :
  operand_tokens buf rest ops [e] -> kind e = TK_EOF ->
  forall t0 front t1 t2 back,
  t0 :: rest = front ++ t1 :: t2 :: back ->
  kind t1 = TK_NUM -> kind t2 = TK_NUM -> False.
Proof.
  remember [e] as tail eqn:Et.
  induction 1 as [tail | s n toks o ops tail Ks C Kn _ IH];
    intros Ke t0 front t1 t2 back E K1 K2; subst tail.
  - destruct front as [|f front]; simpl in E; inversion E; subst.
    + congruence.
    + destruct front as [|f' front]; simpl in *; [discriminate|].
      inversion H1; subst. now destruct front.
  - destruct front as [|f front]; simpl in E; inversion E; subst.
    + congruence.
    + destruct front as [|f' front]; simpl in H1; inversion H1; subst.
      * congruence.
      * eapply (IH eq_refl Ke n front); eauto.
Qed.

(** C9, as the code has it. When two digit runs stand in the input with
    whitespace between them, and every character is whitespace, a sign or a
    digit, the lexer succeeds and makes two number tokens of them, one
    after the other, and the process ends with status 1 on a grammar
    diagnostic after the prologue and the instructions of the tokens
    matched so far were printed. The diagnostic is placed at the first
    token that breaks the grammar: that token does not fit its place, every
    token before it fits, and it is the second number or a token before
    it; the message is that of [expect_number] at an even place and that
    of [expect('-')] at an odd one. When what stands before the second run
    is a well-formed expression, the diagnostic is that of [expect('-')]
    and it is placed at the second number. *)
Theorem adjacent_numbers :
  (forall (prog pre : list ascii) (d1 : ascii) (ws : list ascii) (d2 : ascii)
          (post : list ascii),
     forallb token_char pre = true -> isdigit d1 = true ->
     ws <> [] -> blank ws = true -> isdigit d2 = true ->
     forallb token_char post = true ->
     exists front t1 t2 back,
       tokenize (mkState (pre ++ d1 :: ws ++ d2 :: post) [] [] []) =
         Returned (front ++ t1 :: t2 :: back)
                  (mkState (pre ++ d1 :: ws ++ d2 :: post) [] [] []) /\
       kind t1 = TK_NUM /\ kind t2 = TK_NUM /\
       (str t1 < str t2)%nat /\ str t2 = length (pre ++ d1 :: ws) /\
       exists i tb,
         nth_error (front ++ t1 :: t2 :: back) i = Some tb /\
         (i <= length front + 1)%nat /\
         fits_grammar (pre ++ d1 :: ws ++ d2 :: post) i tb = false /\
         (forall k t, (k < i)%nat ->
            nth_error (front ++ t1 :: t2 :: back) k = Some t ->
            fits_grammar (pre ++ d1 :: ws ++ d2 :: post) k t = true) /\
         first_break (pre ++ d1 :: ws ++ d2 :: post) 0
           (front ++ t1 :: t2 :: back) = Some (i, tb) /\
         run [prog; pre ++ d1 :: ws ++ d2 :: post] =
           Some (mkOutcome 1
                   (prologue ++
                    emitted (pre ++ d1 :: ws ++ d2 :: post)
                      (front ++ t1 :: t2 :: back))
                   (diagnostic (pre ++ d1 :: ws ++ d2 :: post) (str tb)
                      (break_message i)))) /\
  (forall (prog : list ascii) (e : Expr) (d : ascii) (rest : list ascii),
     expr_shape e = true -> trailing_blank e <> [] ->
     isdigit d = true -> forallb lexable rest = true ->
     exists front t1 t2 back,
       tokenize (mkState (render e ++ d :: rest) [] [] []) =
         Returned (front ++ t1 :: t2 :: back)
                  (mkState (render e ++ d :: rest) [] [] []) /\
       kind t1 = TK_NUM /\ kind t2 = TK_NUM /\
       (str t1 < str t2)%nat /\ str t2 = length (render e) /\
       run [prog; render e ++ d :: rest] =
         Some (mkOutcome 1
                 (prologue ++ asm_mov (int_of_digits (first_literal e)) ++
                  asm_ops (ops_of (operands e)))
                 (diagnostic (render e ++ d :: rest) (length (render e))
                    (msg_not_char "-")))).
Proof.
  split.
  - intros prog pre d1 ws d2 post Hpre Hd1 Hne Hws Hd2 Hpost.
    set (arg := pre ++ d1 :: ws ++ d2 :: post).
    assert (Hall : forallb lexable arg = true).
    { unfold arg. apply token_chars_lexable.
      rewrite forallb_app. cbn [forallb]. rewrite forallb_app. cbn [forallb].
      rewrite Hpre, Hpost. unfold token_char at 1 3. rewrite Hd1, Hd2.
      unfold blank in Hws.
      assert (forallb token_char ws = true) as ->.
      { rewrite forallb_forall in *. intros c Hc. unfold token_char.
        now rewrite (Hws c Hc). }
      now rewrite !orb_true_r. }
    destruct (lex_lexable 0 arg Hall) as [toks Hlex].
    destruct (lex_two_numbers _ _ _ Hlex pre d1 ws d2 post eq_refl
                (token_chars_no_nul _ Hpre) Hd1 Hne Hws Hd2)
      as (front & t1 & t2 & back & -> & K1 & K2 & P2).
    exists front, t1, t2, back.
    split; [now apply tokenize_lex|].
    split; [assumption|]. split; [assumption|].
    destruct (lex_invariants _ _ _ Hlex [] eq_refl (Forall_nil _))
      as ((front0 & Efront & Hfront) & Hord & _).
    split.
    { apply in_order_app in Hord. simpl in Hord. tauto. }
    split; [exact P2|].
    assert (Hno : Forall (fun t => kind t <> TK_EOF) front).
    { eapply (prefix_forall _ front0 _ front (t1 :: t2 :: back));
        [symmetry; exact Efront | discriminate | assumption]. }
    destruct (first_break_two_numbers arg t1 t2 back front K1 K2 Hno 0%nat)
      as (i & tb & Fb & Hi).
    destruct (first_break_spec _ _ _ _ _ Fb) as (_ & Hn & Hb & Hbefore).
    rewrite Nat.sub_0_r in Hn, Hbefore.
    pose proof (run_break prog arg _ Hlex) as B. rewrite Fb in B.
    destruct B as [R _].
    exists i, tb. split; [assumption|]. split; [lia|]. split; [assumption|].
    split; [exact Hbefore|]. split; [assumption | exact R].
  - intros prog e d rest Hs Hne Hd Hrest.
    pose proof (expr_shape_spec _ Hs) as (Hb & Hf & Hxs & Ht).
    assert (Hhead : no_digit_head (trailing_blank e ++ d :: rest)).
    { destruct (trailing_blank e) as [|c ws]; [congruence|]. simpl in *.
      apply andb_true_iff in Ht as [Hc _]. now apply isspace_not_digit. }
    destruct (lex_lexable (length (render e)) (d :: rest)) as [tail Htail].
    { simpl. rewrite Hrest. unfold lexable. rewrite Hd.
      now rewrite !orb_true_r. }
    destruct (lex_at_digit _ _ _ _ Hd Htail) as (t2 & back & -> & K2 & P2).
    assert (Hlex' : lex (length (render_body e)) (trailing_blank e ++ d :: rest)
                      (t2 :: back)).
    { apply lex_spaces; [assumption|].
      unfold render in Htail. now rewrite length_app in Htail. }
    destruct (lex_body e _ _ Hb Hf Hxs Hhead Hlex') as (toks & Hlex & Hops).
    destruct (operand_tokens_last_number _ _ _ _ Hops
                (num_token (first_literal e) (length (leading_blank e))) eq_refl)
      as (front & t1 & E & K1).
    assert (Harg : render_body e ++ trailing_blank e ++ d :: rest =
                   render e ++ d :: rest).
    { unfold render. now rewrite <- app_assoc. }
    rewrite E, Harg in Hlex.
    exists front, t1, t2, back.
    split; [now apply tokenize_lex|].
    split; [assumption|]. split; [assumption|].
    split.
    { destruct (lex_invariants _ _ _ Hlex [] eq_refl (Forall_nil _))
        as (_ & Hord & _).
      apply in_order_app in Hord. simpl in Hord. tauto. }
    split; [assumption|].
    rewrite <- Harg.
    rewrite (run_body prog e _ _ Hb Hf Hxs Hhead Hlex').
    rewrite main_loop_bad_sign.
    + unfold finish. cbn [stdout stderr app]. rewrite P2. reflexivity.
    + congruence.
    + unfold not_reserved. now rewrite K2.
    + unfold not_reserved. now rewrite K2.
Qed.

(** C9 as stated fails: "+ 1 2" holds two numbers with whitespace between
    them and is lexed into two number tokens, yet it is rejected at its
    first token, offset 0, and not at the second number, offset 4. *)
Lemma sign_before_two_numbers :
  tokenize (mkState (text "+ 1 2") [] [] []) =
    Returned [mkToken TK_RESERVED 0 0; mkToken TK_NUM 1 2;
              mkToken TK_NUM 2 4; mkToken TK_EOF 0 5]
             (mkState (text "+ 1 2") [] [] []) /\
  compile "+ 1 2" =
    Some (mkOutcome 1 prologue (diagnostic (text "+ 1 2") 0 msg_not_number)) /\
  diagnostic (text "+ 1 2") 0 msg_not_number <>
  diagnostic (text "+ 1 2") 4 (msg_not_char "-").
Proof.
  split; [vm_compute; reflexivity|].
  split; [vm_compute; reflexivity|].
  vm_compute. discriminate.
Qed.


(** Every run with one argument ends: the fuel of the two loops is never
    used up and no NULL pointer is read. *)
Lemma run_total prog arg : exists o, run [prog; arg] = Some o.
Proof.
  destruct (run_cases prog arg) as [(q & _ & R) | (t & rest & _ & H)].
  - eauto.
  - destruct H as [(_ & R) | (_ & ops & tail & _ & H)]; [eauto|].
    destruct H as [(e & _ & _ & R) | (pos & msg & _ & R)]; eauto.
Qed.

(** ** The theorems at sample inputs *)

Lemma compile_correct_witness :
  expr_shape sample_expr = true /\ in_int_range sample_expr = true /\
  render sample_expr = text "1 + 2 - 3" /\
  exists listing,
    run [text "9cc"; render sample_expr] = Some (mkOutcome 0 listing []) /\
    execute 7 listing = Some (signed64 (eval sample_expr)) /\
    (Z.of_nat (length (operands sample_expr)) < 2^32 ->
     execute 7 listing = Some (eval sample_expr)).
Proof.
  split; [reflexivity|]. split; [reflexivity|]. split; [reflexivity|].
  apply (proj1 compile_correct (text "9cc") sample_expr 7); reflexivity.
Defined.

Lemma malformed_input_output_witness :
  run [text "9cc"; text "1 + 2 - 3 +"] =
    Some (mkOutcome 1 (prologue ++ asm_mov 1 ++ asm_add 2 ++ asm_sub 3)
            (diagnostic (text "1 + 2 - 3 +") 11 msg_not_number)) /\
  status (mkOutcome 1 (prologue ++ asm_mov 1 ++ asm_add 2 ++ asm_sub 3)
            (diagnostic (text "1 + 2 - 3 +") 11 msg_not_number)) <> 0 /\
  match tokenize (mkState (text "1 + 2 - 3 +") [] [] []) with
  | Returned toks _ =>
      exists t rest, toks = t :: rest /\
        ((kind t <> TK_NUM /\
          output (mkOutcome 1 (prologue ++ asm_mov 1 ++ asm_add 2 ++ asm_sub 3)
                    (diagnostic (text "1 + 2 - 3 +") 11 msg_not_number)) =
            prologue /\
          errors (mkOutcome 1 (prologue ++ asm_mov 1 ++ asm_add 2 ++ asm_sub 3)
                    (diagnostic (text "1 + 2 - 3 +") 11 msg_not_number)) =
            diagnostic (text "1 + 2 - 3 +") (str t) msg_not_number) \/
         (kind t = TK_NUM /\
          output (mkOutcome 1 (prologue ++ asm_mov 1 ++ asm_add 2 ++ asm_sub 3)
                    (diagnostic (text "1 + 2 - 3 +") 11 msg_not_number)) =
            prologue ++ asm_mov (val t) ++
            asm_ops (matched_pairs (text "1 + 2 - 3 +") rest) /\
          exists tail i tb,
            operand_tokens (text "1 + 2 - 3 +") rest
              (matched_pairs (text "1 + 2 - 3 +") rest) tail /\
            matched_pairs (text "1 + 2 - 3 +") tail = [] /\
            first_break (text "1 + 2 - 3 +") 0 toks = Some (i, tb) /\
            nth_error toks i = Some tb /\
            (2 * length (matched_pairs (text "1 + 2 - 3 +") rest) + 1 <= i <=
             2 * length (matched_pairs (text "1 + 2 - 3 +") rest) + 2)%nat /\
            errors (mkOutcome 1 (prologue ++ asm_mov 1 ++ asm_add 2 ++ asm_sub 3)
                      (diagnostic (text "1 + 2 - 3 +") 11 msg_not_number)) =
              diagnostic (text "1 + 2 - 3 +") (str tb) (break_message i)))
  | _ => output (mkOutcome 1 (prologue ++ asm_mov 1 ++ asm_add 2 ++ asm_sub 3)
                   (diagnostic (text "1 + 2 - 3 +") 11 msg_not_number)) = []
  end.
Proof.
  split; [vm_compute; reflexivity|]. split; [discriminate|].
  apply (malformed_input_output (text "9cc") (text "1 + 2 - 3 +"));
    [vm_compute; reflexivity | discriminate].
Defined.

Lemma success_output_witness :
  run [text "9cc"; text "1 + 2"] =
    Some (mkOutcome 0 (prologue ++ asm_mov 1 ++ asm_add 2 ++ asm_ret) []) /\
  status (mkOutcome 0 (prologue ++ asm_mov 1 ++ asm_add 2 ++ asm_ret) []) = 0 /\
  exists t rest ops e,
    tokenize (mkState (text "1 + 2") [] [] []) =
      Returned (t :: rest) (mkState (text "1 + 2") [] [] []) /\
    kind t = TK_NUM /\ operand_tokens (text "1 + 2") rest ops [e] /\
    kind e = TK_EOF /\ length rest = (2 * length ops + 1)%nat /\
    output (mkOutcome 0 (prologue ++ asm_mov 1 ++ asm_add 2 ++ asm_ret) []) =
      asm_syntax ++ asm_globl ++ asm_label ++
      asm_mov (val t) ++ asm_ops ops ++ asm_ret /\
    errors (mkOutcome 0 (prologue ++ asm_mov 1 ++ asm_add 2 ++ asm_ret) []) = [].
Proof.
  split; [vm_compute; reflexivity|]. split; [reflexivity|].
  apply (success_output (text "9cc") (text "1 + 2"));
    [vm_compute; reflexivity | reflexivity].
Defined.

Lemma tokenize_invariants_witness :
  tokenize sample_state = Returned sample_tokens sample_state /\
  sample_tokens <> [] /\
  (exists front,
      sample_tokens =
        front ++ [mkToken TK_EOF 0 (strlen (user_input sample_state))] /\
      Forall (fun t => kind t <> TK_EOF) front) /\
  in_order (user_input sample_state) sample_tokens /\
  Forall (sign_token_ok (user_input sample_state)) sample_tokens.
Proof.
  split; [vm_compute; reflexivity|].
  apply (tokenize_invariants sample_state sample_state sample_tokens).
  vm_compute; reflexivity.
Defined.


Lemma consume_spec_witness :
  (kind (mkToken TK_RESERVED 0 3) = TK_RESERVED /\
   char_at (text "12 + 3") (str (mkToken TK_RESERVED 0 3)) = "+"%char) /\
  consume "+" (mkState (text "12 + 3")
                 [mkToken TK_RESERVED 0 3; mkToken TK_NUM 3 5; mkToken TK_EOF 0 6]
                 [] []) =
  Returned true (mkState (text "12 + 3")
                   [mkToken TK_NUM 3 5; mkToken TK_EOF 0 6] [] []) /\
  ~ (kind (mkToken TK_RESERVED 0 3) = TK_RESERVED /\
     char_at (text "12 + 3") (str (mkToken TK_RESERVED 0 3)) = "-"%char) /\
  consume "-" (mkState (text "12 + 3")
                 [mkToken TK_RESERVED 0 3; mkToken TK_NUM 3 5; mkToken TK_EOF 0 6]
                 [] []) =
  Returned false (mkState (text "12 + 3")
                    [mkToken TK_RESERVED 0 3; mkToken TK_NUM 3 5; mkToken TK_EOF 0 6]
                    [] []).
Proof.
  split; [split; reflexivity|].
  split.
  - apply (proj2 (consume_spec "+" (text "12 + 3") (mkToken TK_RESERVED 0 3)
                    [mkToken TK_NUM 3 5; mkToken TK_EOF 0 6] [] [])).
    split; reflexivity.
  - assert (N : ~ (kind (mkToken TK_RESERVED 0 3) = TK_RESERVED /\
                   char_at (text "12 + 3") (str (mkToken TK_RESERVED 0 3)) = "-"%char)).
    { intros [_ E]. vm_compute in E. discriminate E. }
    split; [exact N|].
    apply (proj1 (consume_spec "-" (text "12 + 3") (mkToken TK_RESERVED 0 3)
                    [mkToken TK_NUM 3 5; mkToken TK_EOF 0 6] [] [])).
    exact N.
Defined.

Lemma expect_number_spec_witness :
  kind (mkToken TK_NUM 3 5) = TK_NUM /\
  expect_number (mkState (text "12 + 3")
                   [mkToken TK_NUM 3 5; mkToken TK_EOF 0 6] [] []) =
  Returned 3 (mkState (text "12 + 3") [mkToken TK_EOF 0 6] [] []) /\
  kind (mkToken TK_EOF 0 6) <> TK_NUM /\
  expect_number (mkState (text "12 + 3") [mkToken TK_EOF 0 6] [] []) =
  Exited 1 (mkState (text "12 + 3") [mkToken TK_EOF 0 6] []
              ([] ++ diagnostic (text "12 + 3") 6 msg_not_number)).
Proof.
  split; [reflexivity|].
  split.
  - apply (proj1 (proj2 (expect_number_spec (text "12 + 3") (mkToken TK_NUM 3 5)
                           [mkToken TK_EOF 0 6] [] []))).
    reflexivity.
  - split; [discriminate|].
    apply (proj1 (expect_number_spec (text "12 + 3") (mkToken TK_EOF 0 6)
                    [] [] [])).
    discriminate.
Defined.

Lemma adjacent_numbers_witness :
  (forallb token_char (text "1 + + ") = true /\ isdigit "2" = true /\
   text " " <> [] /\ blank (text " ") = true /\ isdigit "3" = true /\
   forallb token_char [] = true /\
   text "1 + + " ++ "2"%char :: text " " ++ ["3"%char] = text "1 + + 2 3" /\
   exists front t1 t2 back,
     tokenize (mkState (text "1 + + " ++ "2"%char :: text " " ++ ["3"%char])
                 [] [] []) =
       Returned (front ++ t1 :: t2 :: back)
                (mkState (text "1 + + " ++ "2"%char :: text " " ++ ["3"%char])
                   [] [] []) /\
     kind t1 = TK_NUM /\ kind t2 = TK_NUM /\
     (str t1 < str t2)%nat /\
     str t2 = length (text "1 + + " ++ "2"%char :: text " ") /\
     exists i tb,
       nth_error (front ++ t1 :: t2 :: back) i = Some tb /\
       (i <= length front + 1)%nat /\
       fits_grammar (text "1 + + " ++ "2"%char :: text " " ++ ["3"%char]) i tb =
         false /\
       (forall k t, (k < i)%nat ->
          nth_error (front ++ t1 :: t2 :: back) k = Some t ->
          fits_grammar (text "1 + + " ++ "2"%char :: text " " ++ ["3"%char]) k t =
            true) /\
       first_break (text "1 + + " ++ "2"%char :: text " " ++ ["3"%char]) 0
         (front ++ t1 :: t2 :: back) = Some (i, tb) /\
       run [text "9cc"; text "1 + + " ++ "2"%char :: text " " ++ ["3"%char]] =
         Some (mkOutcome 1
                 (prologue ++
                  emitted (text "1 + + " ++ "2"%char :: text " " ++ ["3"%char])
                    (front ++ t1 :: t2 :: back))
                 (diagnostic (text "1 + + " ++ "2"%char :: text " " ++ ["3"%char])
                    (str tb) (break_message i)))) /\
  (expr_shape sample_split = true /\ trailing_blank sample_split <> [] /\
   isdigit "2" = true /\ forallb lexable [] = true /\
   render sample_split ++ ["2"%char] = text "1 2" /\
   exists front t1 t2 back,
     tokenize (mkState (render sample_split ++ ["2"%char]) [] [] []) =
       Returned (front ++ t1 :: t2 :: back)
                (mkState (render sample_split ++ ["2"%char]) [] [] []) /\
     kind t1 = TK_NUM /\ kind t2 = TK_NUM /\
     (str t1 < str t2)%nat /\ str t2 = length (render sample_split) /\
     run [text "9cc"; render sample_split ++ ["2"%char]] =
       Some (mkOutcome 1
               (prologue ++ asm_mov (int_of_digits (first_literal sample_split)) ++
                asm_ops (ops_of (operands sample_split)))
               (diagnostic (render sample_split ++ ["2"%char])
                  (length (render sample_split)) (msg_not_char "-")))).
Proof.
  split.
  - split; [reflexivity|]. split; [reflexivity|]. split; [discriminate|].
    split; [reflexivity|]. split; [reflexivity|]. split; [reflexivity|].
    split; [reflexivity|].
    apply (proj1 adjacent_numbers (text "9cc") (text "1 + + ") "2"%char (text " ")
             "3"%char []);
      [reflexivity | reflexivity | discriminate | reflexivity | reflexivity
      | reflexivity].
  - split; [reflexivity|]. split; [discriminate|]. split; [reflexivity|].
    split; [reflexivity|]. split; [reflexivity|].
    apply (proj2 adjacent_numbers (text "9cc") sample_split "2"%char []);
      [reflexivity | discriminate | reflexivity | reflexivity].
Defined.

Lemma blank_input_witness :
  forallb isspace (text "  ") = true /\
  strlen (text "  ") = length (text "  ") /\
  tokenize (mkState (text "  ") [] [] []) =
    Returned [mkToken TK_EOF 0 (length (text "  "))] (mkState (text "  ") [] [] []) /\
  expect_number (mkState (text "  ") [mkToken TK_EOF 0 (length (text "  "))]
                   prologue []) =
    Exited 1 (mkState (text "  ") [mkToken TK_EOF 0 (length (text "  "))] prologue
                (diagnostic (text "  ") (length (text "  ")) msg_not_number)) /\
  run [text "9cc"; text "  "] =
    Some (mkOutcome 1 prologue
            (diagnostic (text "  ") (length (text "  ")) msg_not_number)).
Proof.
  split; [reflexivity|].
  apply (blank_input (text "9cc") (text "  ")). reflexivity.
Defined.

(** * Further properties of the code *)

(** ** The lexer: where it fails *)

Lemma first_bad_app ds rest :
  forallb token_char ds = true ->
  first_bad (ds ++ rest) = option_map (fun q => (length ds + q)%nat) (first_bad rest).
Proof.
  induction ds as [|d ds IH]; simpl; intros H.
  - now destruct (first_bad rest).
  - apply andb_true_iff in H as [Hd Hds].
    rewrite (token_char_not_nul _ Hd), Hd, (IH Hds).
    now destruct (first_bad rest).
Qed.

Lemma digits_token_chars ds : forallb isdigit ds = true -> forallb token_char ds = true.
Proof.
  rewrite !forallb_forall. intros H c Hc. unfold token_char.
  rewrite (H c Hc). now rewrite !orb_true_r.
Qed.

Lemma lex_first_bad p buf toks : lex p buf toks -> first_bad buf = None.
Proof.
  induction 1 as [p buf Hend | p c buf toks Hc _ IH | p c buf toks Hc _ IH
                 | p c buf ds rest toks Hc Hs _ IH].
  - destruct buf as [|c buf]; simpl in *; [reflexivity | now rewrite Hend].
  - simpl. rewrite (isspace_not_nul _ Hc). unfold token_char. rewrite Hc, IH.
    reflexivity.
  - simpl. rewrite (is_sign_not_nul _ Hc). unfold token_char.
    rewrite Hc, orb_true_r, IH. reflexivity.
  - apply span_digits_spec in Hs as (-> & Hds & _).
    rewrite first_bad_app by now apply digits_token_chars.
    now rewrite IH.
Qed.

Lemma lex_error_first_bad p buf q :
  lex_error p buf q ->
  exists k, first_bad buf = Some k /\ q = (p + k)%nat /\
            token_char (char_at buf k) = false /\ (k < strlen buf)%nat.
Proof.
  induction 1 as [p c buf H0 H1 H2 H3 | p c buf q Hc _ IH | p c buf q Hc _ IH
                 | p c buf ds rest q Hc Hs _ IH].
  - exists 0%nat. unfold strlen. simpl. rewrite H0.
    unfold token_char, char_at. simpl. rewrite H1, H2, H3. simpl.
    repeat split; lia.
  - destruct IH as (k & F & -> & T & L). exists (S k).
    unfold strlen in *. simpl. rewrite (isspace_not_nul _ Hc).
    unfold token_char at 1. rewrite Hc, F. simpl. repeat split; [lia | exact T | lia].
  - destruct IH as (k & F & -> & T & L). exists (S k).
    unfold strlen in *. simpl. rewrite (is_sign_not_nul _ Hc).
    unfold token_char at 1. rewrite Hc, orb_true_r, F. simpl.
    repeat split; [lia | exact T | lia].
  - destruct IH as (k & F & -> & T & L).
    apply span_digits_spec in Hs as (E & Hds & _). rewrite E.
    exists (length ds + k)%nat.
    rewrite first_bad_app, F by now apply digits_token_chars.
    unfold strlen in *. rewrite c_string_app by now apply no_nul_digits.
    rewrite length_app. unfold char_at in *. rewrite app_nth2_plus.
    repeat split; [lia | exact T | lia].
Qed.

(** X3. [tokenize] fails exactly when the input holds, before its end, a
    character that is neither whitespace, a sign nor a digit. It then ends
    the process with status 1 and the diagnostic placed at the first such
    character, having touched nothing but the error stream; otherwise it
    returns and leaves the whole state as it was. *)
Theorem tokenize_outcome (s : State) :
  match first_bad (user_input s) with
  | Some q =>
      tokenize s =
        Exited 1 (with_stderr s
          (stderr s ++ diagnostic (user_input s) q msg_cannot_tokenize)) /\
      (q < strlen (user_input s))%nat /\
      token_char (char_at (user_input s) q) = false
  | None => exists toks, tokenize s = Returned toks s
  end.
Proof.
  destruct (tokenize_cases s) as [(toks & H & E) | (q & H & E)].
  - rewrite (lex_first_bad _ _ _ H). eauto.
  - destruct (lex_error_first_bad _ _ _ H) as (k & F & -> & T & L).
    rewrite F, E, error_at_eq. simpl. auto.
Qed.

(** ** The lexer: what the tokens keep of the text *)

Lemma firstn_length_app {A} (l1 l2 : list A) : firstn (length l1) (l1 ++ l2) = l1.
Proof. induction l1; simpl; [now destruct l2 | now f_equal]. Qed.

Lemma token_text_sign pre c buf v :
  token_text (pre ++ c :: buf) (mkToken TK_RESERVED v (length pre)) = [c].
Proof.
  unfold token_text, token_width. simpl. now rewrite skipn_length_app.
Qed.

Lemma token_text_number pre ds rest v :
  span_digits (ds ++ rest) = (ds, rest) ->
  token_text (pre ++ ds ++ rest) (mkToken TK_NUM v (length pre)) = ds.
Proof.
  intros Hs. unfold token_text, token_width. simpl.
  rewrite skipn_length_app, Hs. simpl. apply firstn_length_app.
Qed.

Lemma token_text_eof buf v p : token_text buf (mkToken TK_EOF v p) = [].
Proof. reflexivity. Qed.

Lemma squeeze_digits ds rest :
  forallb isdigit ds = true -> squeeze (ds ++ rest) = ds ++ squeeze rest.
Proof.
  unfold squeeze. induction ds as [|d ds IH]; simpl; intros H; [reflexivity|].
  apply andb_true_iff in H as [Hd Hds].
  rewrite (isdigit_not_space _ Hd). simpl. now rewrite IH.
Qed.

Lemma span_digits_digits c buf ds rest :
  isdigit c = true -> span_digits (c :: buf) = (ds, rest) -> digits ds = true.
Proof.
  intros Hc Hs. destruct (span_digits_head _ _ _ _ Hc Hs) as (ds' & -> & _).
  apply span_digits_spec in Hs as (_ & H & _). exact H.
Qed.

Lemma lex_token_texts p buf toks :
  lex p buf toks ->
  forall pre, length pre = p -> no_nul pre ->
  concat (map (token_text (pre ++ buf)) toks) = squeeze (c_string buf).
Proof.
  induction 1 as [p buf Hend | p c buf toks Hc _ IH | p c buf toks Hc _ IH
                 | p c buf ds rest toks Hc Hs _ IH];
    intros pre Hp Hpre.
  - simpl. now rewrite (c_string_terminator _ Hend).
  - specialize (IH (pre ++ [c])). rewrite <- app_assoc in IH. simpl in IH.
    rewrite IH.
    + simpl. rewrite (isspace_not_nul _ Hc). unfold squeeze. simpl. now rewrite Hc.
    + rewrite length_app. simpl. lia.
    + apply no_nul_app; [assumption|]. repeat constructor. auto with ctype.
  - specialize (IH (pre ++ [c])). rewrite <- app_assoc in IH. simpl in IH.
    cbn [map concat]. rewrite IH.
    + rewrite <- Hp, token_text_sign. simpl. rewrite (is_sign_not_nul _ Hc).
      unfold squeeze. simpl. now rewrite (is_sign_not_space _ Hc).
    + rewrite length_app. simpl. lia.
    + apply no_nul_app; [assumption|]. repeat constructor. auto with ctype.
  - pose proof Hs as Hs'. apply span_digits_spec in Hs' as (E & Hds & _).
    specialize (IH (pre ++ ds)). rewrite <- app_assoc, <- E in IH.
    cbn [map concat]. rewrite IH.
    + rewrite E in Hs |- *. unfold num_token. rewrite <- Hp.
      rewrite (token_text_number _ _ _ _ Hs).
      rewrite c_string_app by now apply no_nul_digits.
      now rewrite squeeze_digits.
    + rewrite length_app. lia.
    + apply no_nul_app; [assumption|]. now apply no_nul_digits.
Qed.

Lemma lex_token_bounds p buf toks :
  lex p buf toks ->
  forall pre, length pre = p -> no_nul pre ->
  Forall (fun t => (str t + token_width (pre ++ buf) t <= p + strlen buf)%nat) toks /\
  (length toks <= S (strlen buf))%nat.
Proof.
  induction 1 as [p buf Hend | p c buf toks Hc _ IH | p c buf toks Hc _ IH
                 | p c buf ds rest toks Hc Hs _ IH];
    intros pre Hp Hpre.
  - split; [|simpl; lia]. repeat constructor. unfold token_width. simpl. lia.
  - specialize (IH (pre ++ [c])). rewrite <- app_assoc in IH. simpl in IH.
    destruct IH as [B L].
    + rewrite length_app. simpl. lia.
    + apply no_nul_app; [assumption|]. repeat constructor. auto with ctype.
    + unfold strlen in *. simpl. rewrite (isspace_not_nul _ Hc). simpl.
      split; [|lia]. eapply Forall_impl; [|exact B]. simpl. intros; lia.
  - specialize (IH (pre ++ [c])). rewrite <- app_assoc in IH. simpl in IH.
    destruct IH as [B L].
    + rewrite length_app. simpl. lia.
    + apply no_nul_app; [assumption|]. repeat constructor. auto with ctype.
    + unfold strlen in *. simpl. rewrite (is_sign_not_nul _ Hc). simpl.
      split; [|lia]. constructor.
      * unfold token_width. simpl. lia.
      * eapply Forall_impl; [|exact B]. simpl. intros; lia.
  - pose proof Hs as Hs'. apply span_digits_spec in Hs' as (E & Hds & _).
    specialize (IH (pre ++ ds)). rewrite <- app_assoc, <- E in IH.
    destruct IH as [B L].
    + rewrite length_app. lia.
    + apply no_nul_app; [assumption|]. now apply no_nul_digits.
    + assert (Hlen : strlen (c :: buf) = (length ds + strlen rest)%nat).
      { unfold strlen. rewrite E, c_string_app by now apply no_nul_digits.
        apply length_app. }
      pose proof (span_digits_digits _ _ _ _ Hc Hs) as Hne.
      assert (1 <= length ds)%nat.
      { destruct ds; simpl in *; [discriminate | lia]. }
      rewrite Hlen. split; [|simpl; lia]. constructor.
      * unfold token_width. simpl. rewrite <- Hp, skipn_length_app, Hs. simpl. lia.
      * eapply Forall_impl; [|exact B]. simpl. intros; lia.
Qed.

Lemma int_of_digits_range ds : - 2^31 <= int_of_digits ds <= INT_MAX.
Proof. apply to_int_range. Qed.

Lemma lex_token_values p buf toks :
  lex p buf toks ->
  forall pre, length pre = p -> no_nul pre ->
  Forall (token_value_ok (pre ++ buf)) toks.
Proof.
  assert (Z0 : - 2^31 <= 0 <= INT_MAX) by (unfold INT_MAX; lia).
  induction 1 as [p buf Hend | p c buf toks Hc _ IH | p c buf toks Hc _ IH
                 | p c buf ds rest toks Hc Hs _ IH];
    intros pre Hp Hpre.
  - repeat constructor; simpl; lia.
  - specialize (IH (pre ++ [c])). rewrite <- app_assoc in IH. simpl in IH.
    apply IH.
    + rewrite length_app. simpl. lia.
    + apply no_nul_app; [assumption|]. repeat constructor. auto with ctype.
  - specialize (IH (pre ++ [c])). rewrite <- app_assoc in IH. simpl in IH.
    constructor.
    + split; simpl; [lia | reflexivity].
    + apply IH.
      * rewrite length_app. simpl. lia.
      * apply no_nul_app; [assumption|]. repeat constructor. auto with ctype.
  - pose proof Hs as Hs'. apply span_digits_spec in Hs' as (E & Hds & _).
    specialize (IH (pre ++ ds)). rewrite <- app_assoc, <- E in IH.
    constructor.
    + split; [apply int_of_digits_range|]. cbn [kind num_token].
      rewrite E in Hs |- *. unfold num_token. rewrite <- Hp.
      rewrite (token_text_number _ _ _ _ Hs).
      split; [|reflexivity].
      rewrite <- E in Hs. exact (span_digits_digits _ _ _ _ Hc Hs).
    + apply IH.
      * rewrite length_app. lia.
      * apply no_nul_app; [assumption|]. now apply no_nul_digits.
Qed.

(** X4. The lexer loses nothing but whitespace: the texts of the tokens
    it returns, put end to end, are the input without its whitespace. *)
Theorem tokenize_keeps_text (s s' : State) (toks : list Token) :
  tokenize s = Returned toks s' ->
  concat (map (token_text (user_input s)) toks) =
  squeeze (c_string (user_input s)).
Proof.
  intros H. apply tokenize_returned in H as [_ Hlex].
  exact (lex_token_texts _ _ _ Hlex [] eq_refl (Forall_nil _)).
Qed.

(** X5. Every token the lexer returns lies inside the input: it ends at
    or before the terminator. There are at most as many tokens as the
    input has characters, plus the end marker. *)
Theorem tokenize_within_input (s s' : State) (toks : list Token) :
  tokenize s = Returned toks s' ->
  Forall (fun t => (str t + token_width (user_input s) t <=
                    strlen (user_input s))%nat) toks /\
  (length toks <= S (strlen (user_input s)))%nat.
Proof.
  intros H. apply tokenize_returned in H as [_ Hlex].
  exact (lex_token_bounds _ _ _ Hlex [] eq_refl (Forall_nil _)).
Qed.

(** X6. The value of every token is an [int]. A number token stands on a
    run of one or more digits and its value is that run read in base 10,
    saturated at [LONG_MAX] and converted to [int]; every other token has
    the value 0. *)
Theorem tokenize_values (s s' : State) (toks : list Token) :
  tokenize s = Returned toks s' ->
  Forall (token_value_ok (user_input s)) toks.
Proof.
  intros H. apply tokenize_returned in H as [_ Hlex].
  exact (lex_token_values _ _ _ Hlex [] eq_refl (Forall_nil _)).
Qed.

(** ** The command line *)

(** X1. With no argument, or with more than one, [main] prints nothing on
    standard output, writes the usage message with the name of the program
    on the error stream, and ends the process with status 1; the input is
    never looked at. *)
Theorem usage_error_run (prog : list ascii) (args : list (list ascii)) :
  length args <> 1%nat ->
  run (prog :: args) =
  Some (mkOutcome 1 []
          (c_string prog ++ text ": 引数の個数が正しくありません" ++ [newline])).
Proof.
  intros H. destruct args as [|a [|b args]]; simpl in H; try lia.
  - unfold run, main, error, bind, fprintf_stderr, exit, initial_state, msg_usage.
    simpl. now rewrite <- app_assoc.
  - unfold run, main, error, bind, fprintf_stderr, exit, initial_state, msg_usage.
    simpl. now rewrite <- app_assoc.
Qed.

(** ** How a run ends *)

Lemma diagnostic_nonempty buf pos msg : diagnostic buf pos msg <> [].
Proof.
  unfold diagnostic. destruct (c_string buf); discriminate.
Qed.

Lemma main_loop_sign_end fuel buf t o out err :
  kind t = TK_RESERVED -> char_at buf (str t) = op_char o ->
  main_loop (S fuel) (mkState buf [t] out err) = Undefined.
Proof.
  intros K C. cbn [main_loop]. unfold bind at 1. rewrite at_eof_eq.
  rewrite kind_not_eof by congruence. unfold bind at 1. rewrite consume_eq.
  destruct o; cbn [op_char] in C.
  - assert (N : not_reserved buf t "+" = false) by (apply not_reserved_false; auto).
    rewrite N. reflexivity.
  - assert (N : not_reserved buf t "+" = true).
    { unfold not_reserved. rewrite C. apply orb_true_r. }
    assert (N' : not_reserved buf t "-" = false) by (apply not_reserved_false; auto).
    rewrite N. unfold bind at 1. rewrite expect_eq, N'. reflexivity.
Qed.

(** When the loop ends the process, the diagnostic is placed at one of
    the tokens it was given. *)
Lemma main_loop_exit_token fuel :
  forall buf toks out err st s',
  main_loop fuel (mkState buf toks out err) = Exited st s' ->
  st = 1 /\
  exists t msg, In t toks /\
    (msg = msg_not_number \/ msg = msg_not_char "-") /\
    stderr s' = err ++ diagnostic buf (str t) msg.
Proof.
  induction fuel as [|fuel IH]; intros buf toks out err st s' H.
  { discriminate H. }
  destruct toks as [|t rest]; [discriminate H|].
  destruct (TokenKind_eqb (kind t) TK_EOF) eqn:K.
  { assert (K' : kind t = TK_EOF) by (destruct (kind t); simpl in K; congruence).
    rewrite main_loop_eof in H by assumption. discriminate H. }
  assert (K' : kind t <> TK_EOF) by (intros E; rewrite E in K; discriminate).
  assert (Hsign : forall o, kind t = TK_RESERVED -> char_at buf (str t) = op_char o ->
    st = 1 /\
    exists t' msg, In t' (t :: rest) /\
      (msg = msg_not_number \/ msg = msg_not_char "-") /\
      stderr s' = err ++ diagnostic buf (str t') msg).
  { intros o Kt C. destruct rest as [|t2 rest'].
    { rewrite (main_loop_sign_end _ _ _ o) in H by assumption. discriminate H. }
    destruct (TokenKind_eqb (kind t2) TK_NUM) eqn:K2.
    - assert (K2' : kind t2 = TK_NUM) by (destruct (kind t2); simpl in K2; congruence).
      rewrite (main_loop_pair _ _ _ _ _ o) in H by assumption.
      destruct (IH _ _ _ _ _ _ H) as (-> & t' & msg & Hin & Hmsg & E).
      split; [reflexivity|]. exists t', msg.
      split; [now right; right | auto].
    - assert (K2' : kind t2 <> TK_NUM) by (intros E; rewrite E in K2; discriminate).
      rewrite (main_loop_bad_operand _ _ _ _ _ o) in H by assumption.
      inversion H; subst. split; [reflexivity|].
      exists t2, msg_not_number. split; [now right; left | auto]. }
  destruct (not_reserved buf t "+") eqn:N.
  2:{ apply not_reserved_false in N as [Kt C]. now apply (Hsign OpAdd). }
  destruct (not_reserved buf t "-") eqn:N'.
  2:{ apply not_reserved_false in N' as [Kt C]. now apply (Hsign OpSub). }
  rewrite main_loop_bad_sign in H by assumption. inversion H; subst.
  split; [reflexivity|].
  exists t, (msg_not_char "-"). split; [now left | auto].
Qed.

(** X2. A run on one argument always ends, without reading through a
    NULL token pointer: either with status 0 and nothing on the error
    stream, or with status 1 and a diagnostic on the error stream. *)
Theorem run_ends (prog arg : list ascii) :
  exists o, run [prog; arg] = Some o /\
    ((status o = 0 /\ errors o = []) \/ (status o = 1 /\ errors o <> [])).
Proof.
  destruct (run_cases prog arg) as [(q & _ & R) | (t & rest & _ & H)].
  - eexists. split; [exact R|]. right. split; [reflexivity|].
    apply diagnostic_nonempty.
  - destruct H as [(_ & R) | (_ & ops & tail & _ & H)].
    + eexists. split; [exact R|]. right. split; [reflexivity|].
      apply diagnostic_nonempty.
    + destruct H as [(e & _ & _ & R) | (pos & msg & _ & R)].
      * eexists. split; [exact R|]. left. split; reflexivity.
      * eexists. split; [exact R|]. right. split; [reflexivity|].
        apply diagnostic_nonempty.
Qed.

(** X7. Whenever a run on one argument fails, the error stream
    holds one positioned diagnostic, with one of the three messages of
    the program, and the offset it is placed at is at most the length of
    the input. *)
Theorem diagnostic_within_input (prog arg : list ascii) (o : Outcome) :
  run [prog; arg] = Some o -> status o <> 0 ->
  exists pos msg,
    errors o = diagnostic arg pos msg /\ known_message msg /\
    (pos <= strlen arg)%nat.
Proof.
  unfold run. rewrite main_unfold. intros Hrun Hst.
  destruct (lex_total arg 0%nat) as [[toks Hlex] | [q Hlex]].
  2:{ rewrite (tokenize_lex_error _ _ Hlex) in Hrun. inversion Hrun; subst.
      destruct (lex_error_first_bad _ _ _ Hlex) as (k & _ & -> & _ & L).
      exists (0 + k)%nat, msg_cannot_tokenize. simpl.
      split; [reflexivity|]. split; [now left | lia]. }
  rewrite (tokenize_lex _ _ Hlex) in Hrun.
  destruct (lex_token_bounds _ _ _ Hlex [] eq_refl (Forall_nil _)) as [B _].
  simpl in B. rewrite Forall_forall in B.
  pose proof (lex_nonempty _ _ _ Hlex) as Hne.
  destruct toks as [|t rest]; [congruence|].
  destruct (TokenKind_eqb (kind t) TK_NUM) eqn:K.
  - assert (K' : kind t = TK_NUM) by (destruct (kind t); simpl in K; congruence).
    rewrite main_body_number in Hrun by assumption.
    destruct (main_loop _ _) as [u s1 | st s1 | |] eqn:L; try discriminate.
    + inversion Hrun; subst. simpl in Hst. congruence.
    + apply main_loop_exit_token in L as (-> & t' & msg & Hin & Hmsg & E).
      inversion Hrun; subst. exists (str t'), msg. simpl in E.
      split; [exact E|]. split; [right; exact Hmsg|].
      specialize (B t' (or_intror Hin)). lia.
  - assert (K' : kind t <> TK_NUM) by (intros E; rewrite E in K; discriminate).
    rewrite main_body_not_number in Hrun by assumption.
    inversion Hrun; subst. exists (str t), msg_not_number.
    split; [reflexivity|]. split; [right; now left|].
    specialize (B t (or_introl eq_refl)). lia.
Qed.

(** ** The cursor *)

(** X8. [expect] is [consume] that does not take no for an answer:
    where [consume] returns true, [expect] returns in the same state, the
    cursor one token further; where [consume] returns false, [expect] ends
    the process with status 1 and a diagnostic that names the expected
    character, placed at the current token, the rest of the state being as
    it was. *)
Theorem expect_follows_consume (op : ascii) (buf : list ascii) (t : Token)
    (next : list Token) (out err : list ascii) :
  match consume op (mkState buf (t :: next) out err) with
  | Returned true s' =>
      expect op (mkState buf (t :: next) out err) = Returned tt s' /\
      s' = mkState buf next out err
  | Returned false s' =>
      s' = mkState buf (t :: next) out err /\
      expect op (mkState buf (t :: next) out err) =
      Exited 1 (mkState buf (t :: next) out
                  (err ++ c_string buf ++ [newline] ++ pad_left (str t) [space] ++
                   text "^ '" ++ [op] ++ text "'ではありません" ++ [newline]))
  | _ => False
  end.
Proof.
  rewrite consume_eq, expect_eq.
  destruct (not_reserved buf t op); [|auto].
  split; [reflexivity|]. unfold diagnostic, msg_not_char.
  now rewrite <- !app_assoc.
Qed.

(** X9. When [main] returns, it returns 0, the cursor is on the
    end-of-input token, which stands at the end of the input and is the
    last one of the list: every other token has been consumed, [at_eof]
    holds, and nothing was written to the error stream. *)
Theorem main_consumes_all (prog arg : list ascii) (st : Z) (s' : State) :
  main [prog; arg] initial_state = Returned st s' ->
  st = 0 /\ user_input s' = arg /\
  token s' = [mkToken TK_EOF 0 (strlen arg)] /\
  at_eof s' = Returned true s' /\ stderr s' = [].
Proof.
  rewrite main_unfold. intros H.
  destruct (lex_total arg 0%nat) as [[toks Hlex] | [q Hlex]].
  2:{ rewrite (tokenize_lex_error _ _ Hlex) in H. discriminate H. }
  rewrite (tokenize_lex _ _ Hlex) in H.
  pose proof (lex_ends_with_eof _ _ _ Hlex) as Hend.
  destruct toks as [|t rest]; [now apply ends_with_eof_nonempty in Hend|].
  destruct (TokenKind_eqb (kind t) TK_NUM) eqn:K.
  2:{ assert (K' : kind t <> TK_NUM) by (intros E; rewrite E in K; discriminate).
      rewrite main_body_not_number in H by assumption. discriminate H. }
  assert (K' : kind t = TK_NUM) by (destruct (kind t); simpl in K; congruence).
  rewrite main_body_number in H by assumption.
  assert (Hrest : ends_with_eof rest).
  { apply (ends_with_eof_tail t); [assumption | congruence]. }
  destruct (main_loop_cases (length (t :: rest)) arg rest
              (prologue ++ asm_mov (val t)) [] Hrest ltac:(simpl; lia))
    as (ops & tail & Hops & Hres).
  destruct Hres as [(e & rest0 & -> & Ke & R) | (cur & pos & msg & _ & R)];
    rewrite R in H; [|discriminate H].
  inversion H; subst; clear H. cbn [user_input token stdout stderr].
  destruct (lex_invariants _ _ _ Hlex [] eq_refl (Forall_nil _))
    as ((front & Efront & Ffront) & _).
  destruct (operand_tokens_app _ _ _ _ Hops) as (front' & E' & _ & _).
  rewrite E' in Efront.
  assert (rest0 = []) as ->.
  { eapply eof_is_last with (front := front) (l1 := t :: front') (e := e);
      [symmetry; exact Efront | assumption | assumption]. }
  change (t :: front' ++ [e]) with ((t :: front') ++ [e]) in Efront.
  apply app_inj_tail in Efront as [_ ->]. simpl.
  repeat split; reflexivity.
Qed.

(** ** The listing of any run *)

Lemma value_fits v : - 2^31 <= v <= INT_MAX -> fits_imm32 v = true.
Proof.
  unfold fits_imm32, INT_MAX. intros H.
  apply andb_true_iff. split; [apply Z.leb_le | apply Z.ltb_lt]; lia.
Qed.

Lemma operand_tokens_fit buf buf' toks ops tail :
  operand_tokens buf toks ops tail ->
  Forall (token_value_ok buf') toks ->
  Forall (fun x => fits_imm32 (snd x) = true) ops.
Proof.
  induction 1 as [tail | t1 t2 toks o ops tail K1 C K2 _ IH]; intros F.
  - constructor.
  - inversion F as [|? ? _ F1]; subst. inversion F1 as [|? ? [R _] F2]; subst.
    constructor; [simpl; now apply value_fits | now apply IH].
Qed.

(** X10. The listing of every successful run can be assembled and
    run: each operand the program printed fits a 32-bit immediate, and
    the run of the listing, from any initial register, leaves in [rax]
    the value of the first number token combined from left to right with
    the values of the number tokens that follow, in the arithmetic of the
    64-bit register. *)
Theorem accepted_listing_runs (prog arg : list ascii) (o : Outcome) :
  run [prog; arg] = Some o -> status o = 0 ->
  exists t rest ops e,
    tokenize (mkState arg [] [] []) =
      Returned (t :: rest) (mkState arg [] [] []) /\
    operand_tokens arg rest ops [e] /\
    Forall (fun x => fits_imm32 (snd x) = true) ((OpAdd, val t) :: ops) /\
    forall rax0,
      execute rax0 (output o) = Some (signed64 (eval_ops (val t) ops)).
Proof.
  intros Hrun Hst.
  destruct (run_cases prog arg) as [(q & Hlex & R) | (t & rest & Hlex & H)].
  { rewrite R in Hrun. inversion Hrun; subst. discriminate. }
  destruct H as [(K & R) | (K & ops & tail & Hops & H)].
  { rewrite R in Hrun. inversion Hrun; subst. discriminate. }
  destruct H as [(e & -> & Ke & R) | (pos & msg & _ & R)].
  2:{ rewrite R in Hrun. inversion Hrun; subst. discriminate. }
  rewrite R in Hrun. injection Hrun as <-.
  pose proof (lex_token_values _ _ _ Hlex [] eq_refl (Forall_nil _)) as V.
  simpl in V. inversion V as [|? ? [Rt _] Vrest]; subst.
  pose proof (operand_tokens_fit _ _ _ _ _ Hops Vrest) as F.
  exists t, rest, ops, e. rewrite (tokenize_lex _ _ Hlex).
  split; [reflexivity|]. split; [assumption|].
  split; [constructor; [simpl; now apply value_fits | assumption]|].
  intros rax0.
  change (execute rax0 (prologue ++ asm_mov (val t) ++ asm_ops ops ++ asm_ret) =
          Some (signed64 (eval_ops (val t) ops))).
  rewrite execute_listing by assumption.
  f_equal. apply run_ops_eval. unfold wrap64. apply Z.mod_mod. lia.
Qed.

(** ** Lines that run without returning *)

Lemma falls_through_exec ls :
  forall rax r, falls_through ls rax = Some r -> exec_lines ls rax = None.
Proof.
  induction ls as [|l ls IH]; intros rax r H; [reflexivity|].
  cbn [falls_through exec_lines] in *.
  destruct (exec_line l rax) as [[rax'|v]|]; try discriminate. eauto.
Qed.

Lemma falls_through_no_ret ls :
  forall rax r, falls_through ls rax = Some r -> ~ In (text "  ret") ls.
Proof.
  induction ls as [|l ls IH]; intros rax r H Hin; [exact Hin|].
  cbn [falls_through] in H. destruct Hin as [E|Hin].
  - subst l.
    replace (exec_line (text "  ret") rax) with (Some (Halted (signed64 rax))) in H
      by reflexivity.
    discriminate.
  - destruct (exec_line l rax) as [[rax'|v]|]; try discriminate.
    exact (IH _ _ H Hin).
Qed.

Lemma falls_through_ops ops :
  Forall (fun x => fits_imm32 (snd x) = true) ops ->
  forall rax, falls_through (split_lines (asm_ops ops)) rax = Some (run_ops rax ops).
Proof.
  induction 1 as [|[o v] ops Hv _ IH]; intros rax.
  - reflexivity.
  - rewrite asm_ops_cons. simpl in Hv.
    unfold asm_op. destruct o; cbn [fst snd].
    + unfold asm_add. rewrite split_lines_line.
      2:{ apply text_line_no_newline. repeat constructor; discriminate. }
      cbn [falls_through]. rewrite exec_line_add by assumption. apply IH.
    + unfold asm_sub. rewrite split_lines_line.
      2:{ apply text_line_no_newline. repeat constructor; discriminate. }
      cbn [falls_through]. rewrite exec_line_sub by assumption. apply IH.
Qed.

Lemma falls_through_unfinished rax0 v0 ops :
  Forall (fun x => fits_imm32 (snd x) = true) ops ->
  falls_through (split_lines (prologue ++ asm_mov v0 ++ asm_ops ops)) rax0 =
  Some (run_ops (wrap64 v0) ops).
Proof.
  intros H. unfold prologue, asm_syntax, asm_globl, asm_label.
  rewrite <- !app_assoc.
  rewrite !split_lines_line by (repeat constructor; discriminate).
  unfold asm_mov. rewrite split_lines_line.
  2:{ apply text_line_no_newline. repeat constructor; discriminate. }
  cbn [falls_through].
  replace (exec_line (text ".intel_syntax noprefix") rax0)
    with (Some (Running rax0)) by reflexivity.
  replace (exec_line (text ".globl main") rax0)
    with (Some (Running rax0)) by reflexivity.
  replace (exec_line (text "main:") rax0)
    with (Some (Running rax0)) by reflexivity.
  rewrite exec_line_mov. now apply falls_through_ops.
Qed.

(** X11. A failed run never leaves a program that can be run:
    whatever it printed before the error holds no return instruction;
    each of its lines can be executed and leaves the machine running, so
    the run of that text falls off its end without a result. *)
Theorem rejected_listing_does_not_run (prog arg : list ascii) (o : Outcome) :
  run [prog; arg] = Some o -> status o <> 0 ->
  ~ In (text "  ret") (split_lines (output o)) /\
  forall rax0,
    (exists rax, falls_through (split_lines (output o)) rax0 = Some rax) /\
    execute rax0 (output o) = None.
Proof.
  intros Hrun Hst.
  assert (Hft : forall rax0,
             exists rax, falls_through (split_lines (output o)) rax0 = Some rax).
  { intros rax0.
    destruct (run_cases prog arg) as [(q & Hlex & R) | (t & rest & Hlex & H)].
    { rewrite R in Hrun. injection Hrun as <-. exists rax0. reflexivity. }
    destruct H as [(K & R) | (K & ops & tail & Hops & H)].
    { rewrite R in Hrun. injection Hrun as <-. exists rax0. reflexivity. }
    destruct H as [(e & -> & Ke & R) | (pos & msg & _ & R)];
      rewrite R in Hrun; injection Hrun as <-.
    { simpl in Hst. congruence. }
    pose proof (lex_token_values _ _ _ Hlex [] eq_refl (Forall_nil _)) as V.
    simpl in V. inversion V as [|? ? _ Vrest]; subst.
    exists (run_ops (wrap64 (val t)) ops).
    change (falls_through
              (split_lines (prologue ++ asm_mov (val t) ++ asm_ops ops)) rax0 =
            Some (run_ops (wrap64 (val t)) ops)).
    apply falls_through_unfinished.
    exact (operand_tokens_fit _ _ _ _ _ Hops Vrest). }
  split.
  - destruct (Hft 0) as [rax H]. exact (falls_through_no_ret _ _ _ H).
  - intros rax0. split; [apply Hft|].
    destruct (Hft rax0) as [rax H]. exact (falls_through_exec _ _ _ H).
Qed.

(** ** The inputs the program accepts *)

Lemma lex_inv_number p buf toks0 :
  lex p buf toks0 ->
  forall t toks, toks0 = t :: toks -> kind t = TK_NUM ->
  exists ws ds rest,
    buf = ws ++ ds ++ rest /\ blank ws = true /\ digits ds = true /\
    no_digit_head rest /\ val t = int_of_digits ds /\
    lex (p + length ws + length ds) rest toks.
Proof.
  induction 1 as [p buf Hend | p c buf toks0 Hc _ IH | p c buf toks0 Hc _ IH
                 | p c buf ds rest toks0 Hc Hs Hlex _];
    intros t toks E K.
  - inversion E; subst. discriminate K.
  - destruct (IH _ _ E K) as (ws & ds & rest & -> & Hws & Hds & Hr & V & L).
    exists (c :: ws), ds, rest.
    replace (p + length (c :: ws) + length ds)%nat
      with (S p + length ws + length ds)%nat by (simpl; lia).
    simpl. rewrite Hc, Hws. repeat split; assumption.
  - inversion E; subst. discriminate K.
  - inversion E; subst.
    pose proof (span_digits_digits _ _ _ _ Hc Hs) as Hds.
    apply span_digits_spec in Hs as (Eb & _ & Hr).
    exists [], ds, rest. simpl. rewrite Nat.add_0_r.
    repeat split; assumption.
Qed.

Lemma lex_inv_sign p buf toks0 :
  lex p buf toks0 ->
  forall t toks, toks0 = t :: toks -> kind t = TK_RESERVED ->
  exists ws c rest,
    buf = ws ++ c :: rest /\ blank ws = true /\ is_sign c = true /\
    str t = (p + length ws)%nat /\ lex (S (p + length ws)) rest toks.
Proof.
  induction 1 as [p buf Hend | p c buf toks0 Hc _ IH | p c buf toks0 Hc Hlex _
                 | p c buf ds rest toks0 Hc Hs _ _];
    intros t toks E K.
  - inversion E; subst. discriminate K.
  - destruct (IH _ _ E K) as (ws & c' & rest & -> & Hws & Hc' & P & L).
    exists (c :: ws), c', rest.
    replace (p + length (c :: ws))%nat with (S p + length ws)%nat by (simpl; lia).
    simpl. rewrite Hc, Hws. repeat split; assumption.
  - inversion E; subst. exists [], c, buf. simpl. rewrite Nat.add_0_r.
    repeat split; assumption.
  - inversion E; subst. discriminate K.
Qed.

Lemma lex_inv_eof p buf toks0 :
  lex p buf toks0 ->
  forall e, toks0 = [e] -> kind e = TK_EOF ->
  exists ws rest, buf = ws ++ rest /\ blank ws = true /\ at_terminator rest.
Proof.
  induction 1 as [p buf Hend | p c buf toks0 Hc _ IH | p c buf toks0 Hc _ _
                 | p c buf ds rest toks0 Hc Hs _ _];
    intros e E K.
  - exists [], buf. auto.
  - destruct (IH _ E K) as (ws & rest & -> & Hws & Ht).
    exists (c :: ws), rest. simpl. rewrite Hc, Hws. auto.
  - inversion E; subst. discriminate K.
  - inversion E; subst. discriminate K.
Qed.

Lemma op_char_of_sign c :
  is_sign c = true -> forall o o', c = op_char o -> c = op_char o' -> o = o'.
Proof. intros _ [] [] E E'; subst; try reflexivity; discriminate. Qed.

Lemma no_nul_blank ws : blank ws = true -> no_nul ws.
Proof. apply no_nul_spaces. Qed.

Lemma no_nul_digit_run ds : digits ds = true -> no_nul ds.
Proof. intros H. apply digits_spec in H as [_ H]. now apply no_nul_digits. Qed.

(** The token pairs the loop of [main] accepts come from a text of
    operands. *)
Lemma operands_from_tokens arg toks ops tail :
  operand_tokens arg toks ops tail ->
  forall e, tail = [e] -> kind e = TK_EOF ->
  forall p buf pre,
  arg = pre ++ buf -> length pre = p -> lex p buf toks ->
  exists xs trail,
    forallb operand_shape xs = true /\ blank trail = true /\
    c_string buf = render_operands xs ++ trail /\ ops_of xs = ops.
Proof.
  induction 1 as [tail | t1 t2 toks o ops tail K1 C K2 _ IH];
    intros e Et Ke p buf pre Earg Hp Hlex.
  - subst tail.
    destruct (lex_inv_eof _ _ _ Hlex e eq_refl Ke) as (ws & rest & -> & Hws & Ht).
    exists [], ws. repeat split; [assumption|].
    rewrite c_string_app by now apply no_nul_blank.
    rewrite (c_string_terminator _ Ht). apply app_nil_r.
  - destruct (lex_inv_sign _ _ _ Hlex _ _ eq_refl K1)
      as (ws1 & c & rest1 & -> & Hws1 & Hc & P1 & L1).
    destruct (lex_inv_number _ _ _ L1 _ _ eq_refl K2)
      as (ws2 & ds & rest2 & -> & Hws2 & Hds & Hr & V & L2).
    assert (Ec : c = op_char o).
    { rewrite <- C, Earg, P1, <- Hp, <- length_app, app_assoc.
      symmetry. apply char_at_app. }
    destruct (IH e Et Ke (length (pre ++ ws1 ++ c :: ws2 ++ ds)) rest2
                (pre ++ ws1 ++ c :: ws2 ++ ds))
      as (xs & trail & Hxs & Ht & Ecs & Eops).
    { rewrite Earg, <- !app_assoc. simpl. now rewrite <- !app_assoc. }
    { reflexivity. }
    { replace (length (pre ++ ws1 ++ c :: ws2 ++ ds))
        with (S (p + length ws1) + length ws2 + length ds)%nat; [exact L2|].
      rewrite !length_app. simpl. rewrite length_app. lia. }
    exists (mkOperand ws1 o ws2 ds :: xs), trail.
    repeat split.
    + cbn [forallb]. rewrite Hxs. unfold operand_shape. cbn [blank_before_sign
        blank_before_literal literal]. now rewrite Hws1, Hws2, Hds.
    + assumption.
    + unfold render_operands. cbn [map concat]. fold (render_operands xs).
      unfold render_operand. simpl. rewrite <- Ec, <- !app_assoc. simpl.
      rewrite <- !app_assoc, <- Ecs.
      rewrite c_string_app by now apply no_nul_blank.
      f_equal. simpl. rewrite (is_sign_not_nul _ Hc). f_equal.
      rewrite c_string_app by now apply no_nul_blank.
      f_equal. now rewrite c_string_app by now apply no_nul_digit_run.
    + simpl. now rewrite V, Eops.
Qed.

(** X12. The inputs the program accepts are the expressions of
    the grammar, a literal followed by any number of signs and literals,
    with any whitespace around them, and no others. Whenever a run on one
    argument ends with status 0 the input is such an expression; and on every such
    expression the run ends with status 0, nothing on the error stream,
    and prints the prologue, the load of the first literal, one add or
    subtract for each operand and the return. The listing depends on the
    values of the literals and on the signs alone, and not on the
    whitespace. *)
Theorem accepted_inputs :
  (forall (prog arg : list ascii) (o : Outcome),
     run [prog; arg] = Some o -> status o = 0 ->
     exists e, expr_shape e = true /\ c_string arg = render e) /\
  (forall (prog : list ascii) (e : Expr),
     expr_shape e = true ->
     run [prog; render e] =
     Some (mkOutcome 0
             (prologue ++ asm_mov (int_of_digits (first_literal e)) ++
              asm_ops (ops_of (operands e)) ++ asm_ret) [])).
Proof.
  split.
  - intros prog arg o Hrun Hst.
    destruct (run_cases prog arg) as [(q & Hlex & R) | (t & rest & Hlex & H)].
    { rewrite R in Hrun. injection Hrun as <-. discriminate. }
    destruct H as [(K & R) | (K & ops & tail & Hops & H)].
    { rewrite R in Hrun. injection Hrun as <-. discriminate. }
    destruct H as [(e & -> & Ke & R) | (pos & msg & _ & R)].
    2:{ rewrite R in Hrun. injection Hrun as <-. discriminate. }
    destruct (lex_inv_number _ _ _ Hlex _ _ eq_refl K)
      as (ws & ds & rest0 & -> & Hws & Hds & Hr & V & L).
    destruct (operands_from_tokens _ _ _ _ Hops e eq_refl Ke
                (length (ws ++ ds)) rest0 (ws ++ ds))
      as (xs & trail & Hxs & Ht & Ecs & _).
    { now rewrite <- app_assoc. }
    { reflexivity. }
    { rewrite length_app. exact L. }
    exists (mkExpr ws ds xs trail). split.
    + unfold expr_shape. simpl. now rewrite Hws, Hds, Hxs, Ht.
    + unfold render, render_body. simpl.
      rewrite c_string_app by now apply no_nul_blank.
      rewrite c_string_app by now apply no_nul_digit_run.
      now rewrite Ecs, <- !app_assoc.
  - intros prog e Hs.
    pose proof (expr_shape_spec _ Hs) as (Hb & Hd & Hxs & Ht).
    unfold render.
    rewrite (run_body prog e (trailing_blank e)
               [mkToken TK_EOF 0 (length (render_body e) + length (trailing_blank e))]);
      try assumption.
    + rewrite main_loop_eof by reflexivity. unfold finish.
      cbn [stdout stderr]. now rewrite <- !app_assoc.
    + now apply no_digit_head_blank_only.
    + now apply lex_blank_end.
Qed.

(** ** The further properties at sample inputs *)

Lemma usage_error_run_witness :
  length [text "1"; text "2"] <> 1%nat /\
  run (text "9cc" :: [text "1"; text "2"]) =
  Some (mkOutcome 1 []
          (c_string (text "9cc") ++ text ": 引数の個数が正しくありません" ++ [newline])).
Proof.
  split; [discriminate|].
  apply (usage_error_run (text "9cc") [text "1"; text "2"]). discriminate.
Defined.

Lemma tokenize_keeps_text_witness :
  tokenize sample_state = Returned sample_tokens sample_state /\
  concat (map (token_text (user_input sample_state)) sample_tokens) =
  squeeze (c_string (user_input sample_state)).
Proof.
  split; [reflexivity|].
  apply (tokenize_keeps_text sample_state sample_state sample_tokens). reflexivity.
Defined.

Lemma tokenize_within_input_witness :
  tokenize sample_state = Returned sample_tokens sample_state /\
  Forall (fun t => (str t + token_width (user_input sample_state) t <=
                    strlen (user_input sample_state))%nat) sample_tokens /\
  (length sample_tokens <= S (strlen (user_input sample_state)))%nat.
Proof.
  split; [reflexivity|].
  apply (tokenize_within_input sample_state sample_state sample_tokens). reflexivity.
Defined.

Lemma tokenize_values_witness :
  tokenize sample_state = Returned sample_tokens sample_state /\
  Forall (token_value_ok (user_input sample_state)) sample_tokens.
Proof.
  split; [reflexivity|].
  apply (tokenize_values sample_state sample_state sample_tokens). reflexivity.
Defined.

Lemma diagnostic_within_input_witness :
  run [text "9cc"; text "1 + +"] =
    Some (mkOutcome 1 (prologue ++ asm_mov 1)
            (diagnostic (text "1 + +") 4 msg_not_number)) /\
  status (mkOutcome 1 (prologue ++ asm_mov 1)
            (diagnostic (text "1 + +") 4 msg_not_number)) <> 0 /\
  exists pos msg,
    errors (mkOutcome 1 (prologue ++ asm_mov 1)
              (diagnostic (text "1 + +") 4 msg_not_number)) =
      diagnostic (text "1 + +") pos msg /\
    known_message msg /\ (pos <= strlen (text "1 + +"))%nat.
Proof.
  split; [vm_compute; reflexivity|]. split; [discriminate|].
  apply (diagnostic_within_input (text "9cc") (text "1 + +"));
    [vm_compute; reflexivity | discriminate].
Defined.

Lemma main_consumes_all_witness :
  main [text "9cc"; text "1 + 2"] initial_state =
    Returned 0 (mkState (text "1 + 2") [mkToken TK_EOF 0 5]
                  (prologue ++ asm_mov 1 ++ asm_add 2 ++ asm_ret) []) /\
  0 = 0 /\
  user_input (mkState (text "1 + 2") [mkToken TK_EOF 0 5]
                (prologue ++ asm_mov 1 ++ asm_add 2 ++ asm_ret) []) = text "1 + 2" /\
  token (mkState (text "1 + 2") [mkToken TK_EOF 0 5]
           (prologue ++ asm_mov 1 ++ asm_add 2 ++ asm_ret) []) =
    [mkToken TK_EOF 0 (strlen (text "1 + 2"))] /\
  at_eof (mkState (text "1 + 2") [mkToken TK_EOF 0 5]
            (prologue ++ asm_mov 1 ++ asm_add 2 ++ asm_ret) []) =
    Returned true (mkState (text "1 + 2") [mkToken TK_EOF 0 5]
                     (prologue ++ asm_mov 1 ++ asm_add 2 ++ asm_ret) []) /\
  stderr (mkState (text "1 + 2") [mkToken TK_EOF 0 5]
            (prologue ++ asm_mov 1 ++ asm_add 2 ++ asm_ret) []) = [].
Proof.
  split; [vm_compute; reflexivity|].
  apply (main_consumes_all (text "9cc") (text "1 + 2")).
  vm_compute; reflexivity.
Defined.

Lemma accepted_listing_runs_witness :
  run [text "9cc"; text "1 + 2"] =
    Some (mkOutcome 0 (prologue ++ asm_mov 1 ++ asm_add 2 ++ asm_ret) []) /\
  status (mkOutcome 0 (prologue ++ asm_mov 1 ++ asm_add 2 ++ asm_ret) []) = 0 /\
  exists t rest ops e,
    tokenize (mkState (text "1 + 2") [] [] []) =
      Returned (t :: rest) (mkState (text "1 + 2") [] [] []) /\
    operand_tokens (text "1 + 2") rest ops [e] /\
    Forall (fun x => fits_imm32 (snd x) = true) ((OpAdd, val t) :: ops) /\
    forall rax0,
      execute rax0
        (output (mkOutcome 0 (prologue ++ asm_mov 1 ++ asm_add 2 ++ asm_ret) [])) =
      Some (signed64 (eval_ops (val t) ops)).
Proof.
  split; [vm_compute; reflexivity|]. split; [reflexivity|].
  apply (accepted_listing_runs (text "9cc") (text "1 + 2"));
    [vm_compute; reflexivity | reflexivity].
Defined.

Lemma rejected_listing_does_not_run_witness :
  run [text "9cc"; text "1 + +"] =
    Some (mkOutcome 1 (prologue ++ asm_mov 1)
            (diagnostic (text "1 + +") 4 msg_not_number)) /\
  status (mkOutcome 1 (prologue ++ asm_mov 1)
            (diagnostic (text "1 + +") 4 msg_not_number)) <> 0 /\
  ~ In (text "  ret")
      (split_lines
         (output (mkOutcome 1 (prologue ++ asm_mov 1)
                    (diagnostic (text "1 + +") 4 msg_not_number)))) /\
  forall rax0,
    (exists rax,
       falls_through
         (split_lines
            (output (mkOutcome 1 (prologue ++ asm_mov 1)
                       (diagnostic (text "1 + +") 4 msg_not_number)))) rax0 =
       Some rax) /\
    execute rax0
      (output (mkOutcome 1 (prologue ++ asm_mov 1)
                 (diagnostic (text "1 + +") 4 msg_not_number))) = None.
Proof.
  split; [vm_compute; reflexivity|]. split; [discriminate|].
  apply (rejected_listing_does_not_run (text "9cc") (text "1 + +"));
    [vm_compute; reflexivity | discriminate].
Defined.

Lemma accepted_inputs_witness :
  (run [text "9cc"; text "1 + 2"] =
     Some (mkOutcome 0 (prologue ++ asm_mov 1 ++ asm_add 2 ++ asm_ret) []) /\
   status (mkOutcome 0 (prologue ++ asm_mov 1 ++ asm_add 2 ++ asm_ret) []) = 0 /\
   exists e, expr_shape e = true /\ c_string (text "1 + 2") = render e) /\
  (expr_shape sample_expr = true /\
   run [text "9cc"; render sample_expr] =
   Some (mkOutcome 0
           (prologue ++ asm_mov (int_of_digits (first_literal sample_expr)) ++
            asm_ops (ops_of (operands sample_expr)) ++ asm_ret) [])).
Proof.
  split.
  - split; [vm_compute; reflexivity|]. split; [reflexivity|].
    apply (proj1 accepted_inputs (text "9cc") (text "1 + 2")
             (mkOutcome 0 (prologue ++ asm_mov 1 ++ asm_add 2 ++ asm_ret) []));
      [vm_compute; reflexivity | reflexivity].
  - split; [reflexivity|].
    apply (proj2 accepted_inputs (text "9cc") sample_expr). reflexivity.
Defined.
